(** * VhdlAddrGenerator: IP-XACT address map to VHDL package constants

    A shallow embedding of
    [scripts/pyXact_generator/ip_xact/vhdl_addr_generator.py]
    and the properties of the constants it emits.

    The generator walks a read-only IP-XACT object tree and drives a
    [VhdlGenerator], whose buffer [out] only ever grows.  The embedding
    threads that buffer (and the standard output written by [print])
    through a state-and-exception monad, so that a Python exception
    leaves the lines written before it in place. *)

From Stdlib Require Import ZArith List String Ascii Bool Lia.
From Stdlib Require Import Sorting.Sorted Sorting.Permutation.
From Stdlib Require Import Floats.SpecFloat.
Import ListNotations.

Local Open Scope string_scope.
Local Open Scope Z_scope.

(** ** The IP-XACT object tree

    The classes of the document model are read through the attributes
    the generator uses; the names are those of the attributes
    ([name] and [value] are prefixed by their class, a record field
    being global). *)

(** Modelled from the spec: the classes of the document model are not
    among the sources; section 3 gives an enumerated value a [name]
    and an integer [value]. *)
Record EnumeratedValue := {
  enum_name : string;
  enum_value : Z
}.

(** Modelled from the spec: one enumerated-value set of a field, the
    group of its values in document order. *)
Record EnumeratedValues := {
  enumeratedValue : list EnumeratedValue
}.

(** Modelled from the spec: the literal reset value bound to a field. *)
Record Reset := {
  reset_value : Z
}.

(** Modelled from the spec: the [resets] object of a field, holding at
    most one reset value. *)
Record Resets := {
  reset : option Reset
}.

(** Modelled from the spec: a field; [resets] may be absent and the
    collection of enumerated-value sets may be empty. *)
Record Field := {
  field_name : string;
  bitOffset : Z;
  bitWidth : Z;
  resets : option Resets;
  enumeratedValues : list EnumeratedValues
}.

(** Modelled from the spec: a register, its fields in document order. *)
Record Register := {
  reg_name : string;
  description : string;
  addressOffset : Z;
  field : list Field
}.

(** Modelled from the spec: an address block, its registers in
    document order. *)
Record AddressBlock := {
  block_name : string;
  baseAddress : Z;
  range : Z;
  register : list Register
}.

(** Modelled from the spec: an address map, its blocks in document
    order. *)
Record MemoryMap := {
  map_name : string;
  addressBlock : list AddressBlock
}.

(** ** Python values and arithmetic *)

Inductive exn :=
| ZeroDivisionError
| OverflowError
| TypeError
| AttributeError.

(** A number handed to a declaration: an [int], or the [float] that
    true division returns (an IEEE-754 binary64). *)
Inductive pynum :=
| PyInt (z : Z)
| PyFloat (f : spec_float).

(** [a % b] on integers: the result has the sign of [b], as [Z.modulo]
    has; a zero divisor raises. *)
Definition py_mod (a b : Z) : exn + Z :=
  if b =? 0 then inl ZeroDivisionError else inr (a mod b).

Definition float_of_int (a : Z) : spec_float :=
  match a with
  | Z0 => S754_zero false
  | Zpos p => S754_finite false p 0
  | Zneg p => S754_finite true p 0
  end.

(** [a / b] on integers (Python 3): the correctly rounded binary64
    quotient of the two integers, rounding to nearest, ties to even.
    A zero divisor raises, a zero dividend gives a signed zero and a
    quotient beyond the doubles raises [OverflowError]. *)
Definition py_truediv (a b : Z) : exn + spec_float :=
  if b =? 0 then inl ZeroDivisionError
  else if a =? 0 then inr (S754_zero (b <? 0))
  else match SFdiv 53 1024 (float_of_int a) (float_of_int b) with
       | S754_infinity _ => inl OverflowError
       | f => inr f
       end.

(** [a // b], which the generator does not use; kept for comparison. *)
Definition py_floordiv (a b : Z) : exn + Z :=
  if b =? 0 then inl ZeroDivisionError else inr (a / b).

(** The float [f] is a whole number. *)
Definition float_is_integer (f : spec_float) : bool :=
  match f with
  | S754_zero _ => true
  | S754_finite _ m e =>
      if 0 <=? e then true else Z.pos m mod 2 ^ (- e) =? 0
  | _ => false
  end.

(** The float [f] is exactly the rational [a / b]. *)
Definition float_is_quotient (f : spec_float) (a b : Z) : Prop :=
  match f with
  | S754_zero _ => a = 0
  | S754_finite s m e =>
      let sm := if s then Z.neg m else Z.pos m in
      if 0 <=? e then sm * 2 ^ e * b = a else sm * b = a * 2 ^ (- e)
  | _ => False
  end.

Definition upper_ascii (c : ascii) : ascii :=
  let n := nat_of_ascii c in
  if andb (Nat.leb 97 n) (Nat.leb n 122) then ascii_of_nat (n - 32) else c.

(** [str.upper] on ASCII text. *)
Fixpoint upper (s : string) : string :=
  match s with
  | EmptyString => EmptyString
  | String c s' => String (upper_ascii c) (upper s')
  end.

Definition dquote : string := String (ascii_of_nat 34) EmptyString.

(** [sorted(l, key=...)]: the stable sort, an element going in front
    of the first one whose key is not smaller. *)
Section Sorted.
Context {A : Type} (key : A -> Z).

Fixpoint insert_by_key (x : A) (l : list A) : list A :=
  match l with
  | [] => [x]
  | y :: l' =>
      if key x <=? key y then x :: y :: l' else y :: insert_by_key x l'
  end.

Fixpoint sorted (l : list A) : list A :=
  match l with
  | [] => []
  | x :: l' => insert_by_key x (sorted l')
  end.
End Sorted.

(** ** The renderer *)

(** Modelled from the spec: [LanDeclaration] (languages/declaration.py)
    is not among the sources; section 6 gives what a declaration
    carries: name, value, type tag, bit width, kind and alignment
    column, in the order the generator passes them. *)
Record LanDeclaration := {
  decl_name : string;
  decl_value : pynum;
  decl_type : string;
  decl_bitWidth : Z;
  decl_specifier : string;
  decl_alignLen : Z
}.

(** Modelled from the spec: [VhdlGenerator] (languages/gen_vhdl.py) is
    not among the sources; section 6 makes the generator responsible
    for the order and arguments of its calls to the renderer only, so
    the buffer [out] holds the calls, each with the arguments passed
    (a keyword argument left out is [None]). *)
Inductive RenderCall :=
| wr_nl
| write_comm_line (gap : option Z)
| write_comment (text : string) (gap : Z) (small : option bool)
    (caption : option string)
| write_decl (decl : LanDeclaration)
| create_includes (includes : list string)
| create_package (name : string) (start : bool).

Record GenState := {
  out : list RenderCall;
  stdout : list string
}.

Definition init_state : GenState := {| out := []; stdout := [] |}.

(** Modelled from the spec: the base class [IpXactAddrGenerator] is
    not among the sources; its constructor is handed the two maps,
    either of which may be [None], and the bus width, and these are
    the attributes of [self] the methods read. *)
Record VhdlAddrGenerator := {
  addrMap : option MemoryMap;
  fieldMap : option MemoryMap;
  busWidth : Z
}.

(** ** The monad of the generator's methods *)

Definition Gen (A : Type) : Type := GenState -> GenState * (exn + A).

Definition ret {A} (a : A) : Gen A := fun st => (st, inr a).

Definition raise {A} (e : exn) : Gen A := fun st => (st, inl e).

Definition bind {A B} (m : Gen A) (k : A -> Gen B) : Gen B :=
  fun st =>
    match m st with
    | (st', inr a) => k a st'
    | (st', inl e) => (st', inl e)
    end.

Declare Scope gen_scope.
Delimit Scope gen_scope with gen.
Notation "x <- m ;; k" := (bind m (fun x => k))
  (at level 100, m at next level, right associativity) : gen_scope.
Notation "m ;; k" := (bind m (fun _ => k))
  (at level 100, right associativity) : gen_scope.
Local Open Scope gen_scope.

Definition lift {A} (r : exn + A) : Gen A :=
  match r with
  | inl e => raise e
  | inr a => ret a
  end.

(** The buffer with [calls] appended, and standard output with
    [lines] appended. *)
Definition extend (st : GenState) (calls : list RenderCall)
    (lines : list string) : GenState :=
  {| out := (out st ++ calls)%list; stdout := (stdout st ++ lines)%list |}.

(** One call of a method of [self.vhdlGen]. *)
Definition vhdlGen (c : RenderCall) : Gen unit :=
  fun st => ({| out := (out st ++ [c])%list; stdout := stdout st |}, inr tt).

Definition print (s : string) : Gen unit :=
  fun st => ({| out := out st; stdout := (stdout st ++ [s])%list |}, inr tt).

(** [for x in l: body(x)], the value of the body dropped. *)
Fixpoint for_each {A B} (l : list A) (body : A -> Gen B) : Gen unit :=
  match l with
  | [] => ret tt
  | x :: l' => body x ;; for_each l' body
  end.

(** ** The methods of VhdlAddrGenerator *)

(** A method returns [False] or falls off its end ([None]). *)
Inductive retval :=
| RetFalse
| RetNone.

Definition write_reg_enums (self : VhdlAddrGenerator) (field : Field)
    : Gen retval :=
  match enumeratedValues field with
  | [] => ret RetFalse
  | _ =>
      vhdlGen wr_nl ;;
      vhdlGen (write_comment
                 (dquote ++ field_name field ++ dquote
                    ++ " field enumerated values")
                 2 (Some true) None) ;;
      for_each (enumeratedValues field) (fun es =>
        for_each (sorted enum_value (enumeratedValue es)) (fun e =>
          let decl := {| decl_name := enum_name e;
                         decl_value := PyInt (enum_value e);
                         decl_type := "std_logic";
                         decl_bitWidth := bitWidth field;
                         decl_specifier := "constant";
                         decl_alignLen := 50 |} in
          vhdlGen (write_decl decl))) ;;
      ret RetNone
  end.

Definition write_res_vals (self : VhdlAddrGenerator) (field : Field)
    : Gen retval :=
  match resets field with
  | None => ret RetFalse
  | Some rs =>
      match reset rs with
      | None => ret RetFalse
      | Some r =>
          let decl := {| decl_name := field_name field ++ "_RSTVAL";
                         decl_value := PyInt (reset_value r);
                         decl_type := "std_logic";
                         decl_bitWidth := bitWidth field;
                         decl_specifier := "constant";
                         decl_alignLen := 50 |} in
          vhdlGen (write_decl decl) ;;
          ret RetNone
      end
  end.

Definition write_reg_field (self : VhdlAddrGenerator) (field : Field)
    (reg : Register) : Gen unit :=
  let bitIndexL := bitOffset field in
  let bitIndexH := bitOffset field + bitWidth field - 1 in
  adjL <- lift (py_mod (addressOffset reg * 8) (busWidth self)) ;;
  let bitIndexL := bitIndexL + adjL in
  adjH <- lift (py_mod (addressOffset reg * 8) (busWidth self)) ;;
  let bitIndexH := bitIndexH + adjH in
  let iter :=
    if bitIndexH =? bitIndexL then [("_IND", bitIndexL)]
    else [("_L", bitIndexL); ("_H", bitIndexH)] in
  for_each iter (fun item =>
    let decl := {| decl_name := field_name field ++ fst item;
                   decl_value := PyInt (snd item);
                   decl_type := "natural";
                   decl_bitWidth := bitWidth field;
                   decl_specifier := "constant";
                   decl_alignLen := 50 |} in
    vhdlGen (write_decl decl)).

Definition __write_reg (self : VhdlAddrGenerator) (reg : Register)
    (writeFields writeEnums writeReset : bool) : Gen unit :=
  let capt := upper (reg_name reg) ++ " register" in
  vhdlGen (write_comment (description reg) 2 None (Some capt)) ;;
  (if writeFields
   then for_each (sorted bitOffset (field reg)) (fun field =>
          write_reg_field self field reg)
   else ret tt) ;;
  (if writeEnums
   then for_each (field reg) (fun field => write_reg_enums self field) ;;
        vhdlGen wr_nl
   else ret tt) ;;
  (if writeReset
   then vhdlGen (write_comment
                   (upper (reg_name reg) ++ " register reset values")
                   2 (Some true) None) ;;
        for_each (field reg) (fun field => write_res_vals self field)
   else ret tt) ;;
  vhdlGen wr_nl.

Definition write_regs (self : VhdlAddrGenerator) (regs : list Register)
    : Gen unit :=
  for_each (sorted addressOffset regs) (fun reg =>
    __write_reg self reg true true true).

Definition write_addrbl_head (self : VhdlAddrGenerator)
    (addressBlock : AddressBlock) : Gen unit :=
  vhdlGen (write_comm_line None) ;;
  vhdlGen (write_comment ("Address block: " ++ block_name addressBlock)
             2 None None) ;;
  vhdlGen (write_comm_line None) ;;
  let bitWidth := 4 in
  q <- lift (py_truediv (baseAddress addressBlock) (range addressBlock)) ;;
  let decl := {| decl_name := block_name addressBlock ++ "_BLOCK";
                 decl_value := PyFloat q;
                 decl_type := "std_logic";
                 decl_bitWidth := bitWidth;
                 decl_specifier := "constant";
                 decl_alignLen := 80 |} in
  vhdlGen (write_decl decl) ;;
  vhdlGen wr_nl.

Definition write_addrbl_regs (self : VhdlAddrGenerator)
    (addressBlock : AddressBlock) : Gen unit :=
  for_each (sorted addressOffset (register addressBlock)) (fun reg =>
    let decl := {| decl_name := reg_name reg ++ "_ADR";
                   decl_value :=
                     PyInt (addressOffset reg + baseAddress addressBlock);
                   decl_type := "std_logic";
                   decl_bitWidth := 12;
                   decl_specifier := "constant";
                   decl_alignLen := 80 |} in
    vhdlGen (write_decl decl)).

(** [self.addrMap.addressBlock]: [None] has no such attribute. *)
Definition blocks_of (m : option MemoryMap) : Gen (list AddressBlock) :=
  match m with
  | None => raise AttributeError
  | Some mm => ret (addressBlock mm)
  end.

Definition write_mem_map_addr (self : VhdlAddrGenerator) : Gen unit :=
  blocks <- blocks_of (addrMap self) ;;
  for_each blocks (fun block =>
    write_addrbl_head self block ;;
    write_addrbl_regs self block ;;
    vhdlGen wr_nl).

Definition write_mem_map_fields (self : VhdlAddrGenerator) : Gen unit :=
  blocks <- blocks_of (fieldMap self) ;;
  for_each blocks (fun block => write_regs self (register block)).

Definition write_mem_map_both (self : VhdlAddrGenerator) : Gen unit :=
  write_mem_map_fields self ;;
  write_mem_map_addr self.

(** The heading tests the maps with [!= None] and the body by their
    truth value; a map object has neither [__bool__] nor [__len__], so
    the two tests agree and a map that is there is true. *)
Definition create_addrMap_package (self : VhdlAddrGenerator) (name : string)
    : Gen unit :=
  vhdlGen wr_nl ;;
  vhdlGen (write_comm_line (Some 0)) ;;
  match addrMap self with
  | Some am =>
      print ("Writing addresses of '" ++ map_name am ++ "' register map") ;;
      vhdlGen (write_comment ("Addresses map for: " ++ map_name am)
                 0 (Some true) None)
  | None => ret tt
  end ;;
  match fieldMap self with
  | Some fm =>
      print ("Writing bit fields of '" ++ map_name fm ++ "' register map") ;;
      vhdlGen (write_comment ("Field map for: " ++ map_name fm)
                 0 (Some true) None)
  | None => ret tt
  end ;;
  vhdlGen (write_comment "This file is autogenerated, DO NOT EDIT!"
             0 (Some true) None) ;;
  vhdlGen (write_comm_line (Some 0)) ;;
  vhdlGen wr_nl ;;
  vhdlGen (create_includes ["std_logic_1164.all"]) ;;
  vhdlGen wr_nl ;;
  vhdlGen (create_package name true) ;;
  vhdlGen wr_nl ;;
  match addrMap self with
  | Some _ => write_mem_map_addr self
  | None => ret tt
  end ;;
  match fieldMap self with
  | Some _ => write_mem_map_fields self
  | None => ret tt
  end ;;
  vhdlGen (create_package name false).

(** *** The public single-register entry point

    [write_reg] calls the bound method [self.__write_reg] with [self]
    again as its first argument.  A call binds the positional
    arguments to the parameters after [self] and raises [TypeError]
    when their numbers differ, before the body runs. *)

Inductive pyobj :=
| ObjGenerator (g : VhdlAddrGenerator)
| ObjRegister (r : Register)
| ObjBool (b : bool).

(** [x == True]. *)
Definition eq_True (x : pyobj) : bool :=
  match x with
  | ObjBool b => b
  | _ => false
  end.

(** The bound method [self.__write_reg] applied to positional
    arguments: four parameters follow [self]; the body reads
    [reg.name] first, which only a register has. *)
Definition call__write_reg (self : VhdlAddrGenerator)
    (args : list pyobj) : Gen unit :=
  match args with
  | [reg; writeFields; writeEnums; writeReset] =>
      match reg with
      | ObjRegister r =>
          __write_reg self r (eq_True writeFields)
            (eq_True writeEnums) (eq_True writeReset)
      | _ => raise AttributeError
      end
  | _ => raise TypeError
  end.

(** The arguments [write_reg] passes, in the order it passes them. *)
Definition write_reg_args (self : VhdlAddrGenerator) (reg : Register)
    (writeFields writeRstVal writeEnums : bool) : list pyobj :=
  [ObjGenerator self; ObjRegister reg; ObjBool writeFields;
   ObjBool writeEnums; ObjBool writeRstVal].

Definition write_reg (self : VhdlAddrGenerator) (reg : Register)
    (writeFields writeRstVal writeEnums : bool) : Gen unit :=
  call__write_reg self
    (write_reg_args self reg writeFields writeRstVal writeEnums).

(** ** What a run appends *)

(** The declarations among a sequence of renderer calls, and their
    names. *)
Definition emitted_decls (calls : list RenderCall) : list LanDeclaration :=
  flat_map (fun c => match c with write_decl d => [d] | _ => [] end) calls.

Definition emitted_names (calls : list RenderCall) : list string :=
  map decl_name (emitted_decls calls).

(** [appends m calls lines r]: from any state, [m] appends [calls] to
    the buffer and [lines] to standard output, and ends with [r]. *)
Definition appends {A} (m : Gen A) (calls : list RenderCall)
    (lines : list string) (r : exn + A) : Prop :=
  forall st, m st = (extend st calls lines, r).

(** [m] appends the same, and ends the same, from every state. *)
Definition framed {A} (m : Gen A) : Prop :=
  exists calls lines r, appends m calls lines r.

(** The addresses mode as the specification words it, the blocks
    taken by ascending [baseAddress]; [write_mem_map_addr] is compared
    with it. *)
Definition write_mem_map_addr_ascending (self : VhdlAddrGenerator)
    : Gen unit :=
  blocks <- blocks_of (addrMap self) ;;
  for_each (sorted baseAddress blocks) (fun block =>
    write_addrbl_head self block ;;
    write_addrbl_regs self block ;;
    vhdlGen wr_nl).

(** A check of [py_truediv] against the quotient it rounds: the float
    is within the relative error 2^-53 of [a / b], is the quotient
    itself when [b] divides [a], and is not a whole number otherwise. *)
Definition truediv_rounds (a b : Z) : bool :=
  match py_truediv a b with
  | inr (S754_zero _) => a =? 0
  | inr (S754_finite s m e) =>
      let sm := if s then Z.neg m else Z.pos m in
      let num := if 0 <=? e then sm * 2 ^ e else sm in
      let den := if 0 <=? e then 1 else 2 ^ (- e) in
      (Z.abs (num * b - a * den) * 2 ^ 53 <=? Z.abs a * den)
      && (if a mod b =? 0 then num * b =? a * den
          else negb (float_is_integer (S754_finite s m e)))
  | _ => false
  end.

Definition truediv_rounds_upto (amax bmax : nat) : bool :=
  forallb (fun a =>
    forallb (fun b => truediv_rounds (Z.of_nat a) (Z.of_nat (S b))
                      && truediv_rounds (- Z.of_nat a) (Z.of_nat (S b)))
      (seq 0 bmax))
    (seq 0 amax).

(** The register has a field at least. *)
Definition has_field (reg : Register) : bool :=
  match field reg with
  | [] => false
  | _ :: _ => true
  end.

(** [m] returns normally from every state, printing nothing. *)
Definition runs {A} (m : Gen A) : Prop :=
  exists calls a, appends m calls [] (inr a).

(** [m] raises [e] from every state, printing nothing. *)
Definition raises {A} (e : exn) (m : Gen A) : Prop :=
  exists calls, appends m calls [] (inl e).

(** The calls the traversals of the maps make: blank lines, rules and
    comments at indentation 2, and declarations of constants, typed
    [natural] and aligned at 50 or typed [std_logic] and aligned at 50
    or 80; never an include or a package boundary. *)
Definition body_call (c : RenderCall) : Prop :=
  match c with
  | wr_nl => True
  | write_comm_line gap => gap = None
  | write_comment _ gap _ _ => gap = 2
  | write_decl d =>
      decl_specifier d = "constant"
      /\ ((decl_type d = "natural" /\ decl_alignLen d = 50)
          \/ (decl_type d = "std_logic"
              /\ (decl_alignLen d = 50 \/ decl_alignLen d = 80)))
  | create_includes _ => False
  | create_package _ _ => False
  end.

(** [m] prints nothing and appends calls that all satisfy [P], however
    it ends. *)
Definition emits_only (P : RenderCall -> Prop) {A} (m : Gen A) : Prop :=
  exists calls r, appends m calls [] r /\ Forall P calls.

Lemma extend_nil st : extend st [] [] = st.
Proof.
  destruct st as [o s]. unfold extend. simpl. now rewrite !app_nil_r.
Qed.

Lemma extend_extend st c1 l1 c2 l2 :
  extend (extend st c1 l1) c2 l2 = extend st (c1 ++ c2) (l1 ++ l2).
Proof.
  unfold extend. simpl. now rewrite !app_assoc.
Qed.

Lemma appends_ret {A} (a : A) : appends (ret a) [] [] (inr a).
Proof. intro st. unfold ret. now rewrite extend_nil. Qed.

Lemma appends_raise {A} e : appends (@raise A e) [] [] (inl e).
Proof. intro st. unfold raise. now rewrite extend_nil. Qed.

Lemma appends_vhdlGen c : appends (vhdlGen c) [c] [] (inr tt).
Proof.
  intro st. unfold vhdlGen, extend. now rewrite app_nil_r.
Qed.

Lemma appends_print s : appends (print s) [] [s] (inr tt).
Proof.
  intro st. unfold print, extend. now rewrite app_nil_r.
Qed.

Lemma appends_bind {A B} (m : Gen A) (k : A -> Gen B) c1 l1 a c2 l2 r :
  appends m c1 l1 (inr a) ->
  appends (k a) c2 l2 r ->
  appends (bind m k) (c1 ++ c2) (l1 ++ l2) r.
Proof.
  intros Hm Hk st. unfold bind. rewrite Hm, Hk. now rewrite extend_extend.
Qed.

Lemma appends_bind_raise {A B} (m : Gen A) (k : A -> Gen B) c l e :
  appends m c l (inl e) ->
  appends (bind m k) c l (inl e).
Proof.
  intros Hm st. unfold bind. now rewrite Hm.
Qed.

(** A step that writes calls only, followed by the rest. *)
Lemma appends_step {A B} (m : Gen A) (k : A -> Gen B) c1 a c2 l2 r :
  appends m c1 [] (inr a) ->
  appends (k a) c2 l2 r ->
  appends (bind m k) (c1 ++ c2) l2 r.
Proof.
  intros Hm Hk. exact (appends_bind m k c1 [] a c2 l2 r Hm Hk).
Qed.

Lemma appends_for_each {A B} (l : list A) (body : A -> Gen B)
    (calls : A -> list RenderCall) (res : A -> B) :
  (forall x, In x l -> appends (body x) (calls x) [] (inr (res x))) ->
  appends (for_each l body) (flat_map calls l) [] (inr tt).
Proof.
  induction l as [|x l IH]; intros H; simpl.
  - apply appends_ret.
  - eapply appends_step.
    + apply H. now left.
    + apply IH. intros y Hy. apply H. now right.
Qed.

Lemma appends_init {A} (m : Gen A) calls lines r :
  appends m calls lines r ->
  m init_state = ({| out := calls; stdout := lines |}, r).
Proof.
  intros H. now rewrite H.
Qed.

Lemma appends_inj {A} (m : Gen A) c1 l1 r1 c2 l2 r2 :
  appends m c1 l1 r1 -> appends m c2 l2 r2 ->
  c1 = c2 /\ l1 = l2 /\ r1 = r2.
Proof.
  intros H1 H2. apply appends_init in H1. apply appends_init in H2.
  rewrite H1 in H2. now inversion H2.
Qed.

(** *** Every method is framed *)

Lemma framed_ret {A} (a : A) : framed (ret a).
Proof. exists [], [], (inr a). apply appends_ret. Qed.

Lemma framed_raise {A} e : framed (@raise A e).
Proof. exists [], [], (inl e). apply appends_raise. Qed.

Lemma framed_lift {A} (r : exn + A) : framed (lift r).
Proof. destruct r; [apply framed_raise | apply framed_ret]. Qed.

Lemma framed_vhdlGen c : framed (vhdlGen c).
Proof. exists [c], [], (inr tt). apply appends_vhdlGen. Qed.

Lemma framed_print s : framed (print s).
Proof. exists [], [s], (inr tt). apply appends_print. Qed.

Lemma framed_bind {A B} (m : Gen A) (k : A -> Gen B) :
  framed m -> (forall a, framed (k a)) -> framed (bind m k).
Proof.
  intros (c1 & l1 & [e|a] & Hm) Hk.
  - exists c1, l1, (inl e). now apply appends_bind_raise.
  - destruct (Hk a) as (c2 & l2 & r & Hka).
    exists (c1 ++ c2)%list, (l1 ++ l2)%list, r. eapply appends_bind; eauto.
Qed.

Lemma framed_for_each {A B} (l : list A) (body : A -> Gen B) :
  (forall x, framed (body x)) -> framed (for_each l body).
Proof.
  intros H. induction l as [|x l IH]; simpl.
  - apply framed_ret.
  - apply framed_bind; auto.
Qed.

Lemma framed_if {A} (b : bool) (m1 m2 : Gen A) :
  framed m1 -> framed m2 -> framed (if b then m1 else m2).
Proof. now destruct b. Qed.

Create HintDb framed.
#[local] Hint Resolve framed_ret framed_raise framed_lift framed_vhdlGen
  framed_print framed_for_each framed_if : framed.
#[local] Hint Extern 3 (framed (bind _ _)) =>
  apply framed_bind; [| intro] : framed.

Lemma framed_write_reg_enums self f : framed (write_reg_enums self f).
Proof.
  unfold write_reg_enums. destruct (enumeratedValues f); auto 10 with framed.
Qed.

Lemma framed_write_res_vals self f : framed (write_res_vals self f).
Proof.
  unfold write_res_vals. destruct (resets f) as [rs|]; auto with framed.
  destruct (reset rs); auto with framed.
Qed.

Lemma framed_write_reg_field self f r : framed (write_reg_field self f r).
Proof. unfold write_reg_field. auto 10 with framed. Qed.

#[local] Hint Resolve framed_write_reg_enums framed_write_res_vals
  framed_write_reg_field : framed.

Lemma framed__write_reg self r wf we wr :
  framed (__write_reg self r wf we wr).
Proof. unfold __write_reg. auto 12 with framed. Qed.

#[local] Hint Resolve framed__write_reg : framed.

Lemma framed_write_regs self regs : framed (write_regs self regs).
Proof. unfold write_regs. auto with framed. Qed.

Lemma framed_write_addrbl_head self b : framed (write_addrbl_head self b).
Proof. unfold write_addrbl_head. auto 12 with framed. Qed.

Lemma framed_write_addrbl_regs self b : framed (write_addrbl_regs self b).
Proof. unfold write_addrbl_regs. auto with framed. Qed.

Lemma framed_blocks_of m : framed (blocks_of m).
Proof. destruct m; simpl; auto with framed. Qed.

#[local] Hint Resolve framed_write_regs framed_write_addrbl_head
  framed_write_addrbl_regs framed_blocks_of : framed.

Lemma framed_write_mem_map_addr self : framed (write_mem_map_addr self).
Proof. unfold write_mem_map_addr. auto 10 with framed. Qed.

Lemma framed_write_mem_map_fields self : framed (write_mem_map_fields self).
Proof. unfold write_mem_map_fields. auto 10 with framed. Qed.

#[local] Hint Resolve framed_write_mem_map_addr framed_write_mem_map_fields
  : framed.

Lemma framed_write_mem_map_both self : framed (write_mem_map_both self).
Proof. unfold write_mem_map_both. auto with framed. Qed.

(** A framed run is known from its run on the empty buffer. *)
Lemma framed_from_init {A} (m : Gen A) calls lines r :
  framed m ->
  m init_state = ({| out := calls; stdout := lines |}, r) ->
  appends m calls lines r.
Proof.
  intros (c & l & r' & H) Hi. rewrite (appends_init _ _ _ _ H) in Hi.
  inversion Hi; subst. exact H.
Qed.

(** ** The stable sort *)

Section SortedFacts.
Context {A : Type} (key : A -> Z).

Lemma insert_by_key_perm x l :
  Permutation (insert_by_key key x l) (x :: l).
Proof.
  induction l as [|y l IH]; simpl.
  - apply Permutation_refl.
  - destruct (key x <=? key y).
    + apply Permutation_refl.
    + eapply Permutation_trans; [apply perm_skip, IH | apply perm_swap].
Qed.

Lemma sorted_perm l : Permutation (sorted key l) l.
Proof.
  induction l as [|x l IH]; simpl.
  - constructor.
  - eapply Permutation_trans; [apply insert_by_key_perm |].
    now apply perm_skip.
Qed.

Lemma sorted_length l : List.length (sorted key l) = List.length l.
Proof. apply Permutation_length, sorted_perm. Qed.

Lemma insert_by_key_ascending x l :
  StronglySorted Z.le (map key l) ->
  StronglySorted Z.le (map key (insert_by_key key x l)).
Proof.
  induction l as [|y l IH]; simpl; intros Hs.
  - repeat constructor.
  - inversion Hs as [|? ? Hl Hy]; subst.
    destruct (key x <=? key y) eqn:E; simpl.
    + apply Z.leb_le in E. constructor; [exact Hs |].
      constructor; [exact E |].
      eapply Forall_impl; [| exact Hy]. intros; lia.
    + apply Z.leb_gt in E. constructor; [now apply IH |].
      apply (Permutation_Forall
               (Permutation_sym
                  (Permutation_map key (insert_by_key_perm x l)))).
      simpl. constructor; [lia | exact Hy].
Qed.

Lemma sorted_ascending l : StronglySorted Z.le (map key (sorted key l)).
Proof.
  induction l as [|x l IH]; simpl.
  - constructor.
  - now apply insert_by_key_ascending.
Qed.

(** Ties keep the order of the input: the elements of any one key
    come out in the order they went in. *)
Lemma insert_by_key_stable k x l :
  filter (fun y => key y =? k) (insert_by_key key x l)
  = filter (fun y => key y =? k) (x :: l).
Proof.
  induction l as [|y l IH]; simpl in *.
  - reflexivity.
  - destruct (key x <=? key y) eqn:E; simpl.
    + reflexivity.
    + apply Z.leb_gt in E. rewrite IH.
      destruct (key x =? k) eqn:Ex; [| reflexivity].
      apply Z.eqb_eq in Ex.
      destruct (key y =? k) eqn:Ey; [| reflexivity].
      apply Z.eqb_eq in Ey. lia.
Qed.

Lemma sorted_stable k l :
  filter (fun y => key y =? k) (sorted key l)
  = filter (fun y => key y =? k) l.
Proof.
  induction l as [|x l IH]; simpl.
  - reflexivity.
  - rewrite insert_by_key_stable. simpl. now rewrite IH.
Qed.

(** With pairwise distinct keys the order is strict. *)
Lemma ascending_nodup_strict (ks : list Z) :
  StronglySorted Z.le ks -> NoDup ks -> StronglySorted Z.lt ks.
Proof.
  induction 1 as [|k ks Hs IH Hk]; intros Hn.
  - constructor.
  - inversion Hn as [|? ? Hnotin Hn']; subst.
    constructor; [now apply IH |].
    rewrite Forall_forall in *. intros y Hy.
    specialize (Hk y Hy).
    assert (y <> k) by (intros ->; contradiction). lia.
Qed.

Lemma sorted_strict l :
  NoDup (map key l) -> StronglySorted Z.lt (map key (sorted key l)).
Proof.
  intros Hn. apply ascending_nodup_strict.
  - apply sorted_ascending.
  - eapply Permutation_NoDup; [| exact Hn].
    apply Permutation_sym, Permutation_map, sorted_perm.
Qed.

(** A list already in strict order is left as it is. *)
Lemma insert_by_key_head x l :
  Forall (fun y => key x <= key y) l ->
  insert_by_key key x l = x :: l.
Proof.
  destruct l as [|y l]; simpl; intros H; [reflexivity |].
  inversion H; subst.
  destruct (key x <=? key y) eqn:E; [reflexivity |].
  apply Z.leb_gt in E. lia.
Qed.

Lemma sorted_fixed l :
  StronglySorted Z.le (map key l) -> sorted key l = l.
Proof.
  induction l as [|x l IH]; simpl; intros Hs; [reflexivity |].
  inversion Hs as [|? ? Hl Hx]; subst.
  rewrite IH by assumption. apply insert_by_key_head.
  rewrite Forall_map in Hx. exact Hx.
Qed.

(** Two strictly ascending lists with the same elements are equal. *)
Lemma strict_perm_eq l1 l2 :
  StronglySorted Z.lt (map key l1) ->
  StronglySorted Z.lt (map key l2) ->
  Permutation l1 l2 -> l1 = l2.
Proof.
  revert l2. induction l1 as [|x l1 IH]; intros l2 H1 H2 Hp.
  - apply Permutation_nil in Hp. now subst.
  - destruct l2 as [|y l2].
    + apply Permutation_sym, Permutation_nil in Hp. discriminate.
    + simpl in H1, H2.
      inversion H1 as [|? ? H1s H1f]; subst.
      inversion H2 as [|? ? H2s H2f]; subst.
      rewrite Forall_map in H1f, H2f. rewrite Forall_forall in H1f, H2f.
      assert (Hxy : x = y).
      { assert (Hx : In x (y :: l2))
          by (eapply Permutation_in; [exact Hp | now left]).
        assert (Hy : In y (x :: l1))
          by (eapply Permutation_in;
              [apply Permutation_sym; exact Hp | now left]).
        destruct Hx as [Hx|Hx]; [now subst |].
        destruct Hy as [Hy|Hy]; [now subst |].
        specialize (H1f y Hy). specialize (H2f x Hx). lia. }
      subst y. f_equal. apply IH; auto.
      eapply Permutation_cons_inv; exact Hp.
Qed.

(** With pairwise distinct keys the result does not depend on the
    order of the input. *)
Lemma sorted_perm_invariant l1 l2 :
  NoDup (map key l1) -> Permutation l1 l2 ->
  sorted key l1 = sorted key l2.
Proof.
  intros Hn Hp. apply strict_perm_eq.
  - now apply sorted_strict.
  - apply sorted_strict. eapply Permutation_NoDup; [| exact Hn].
    now apply Permutation_map.
  - eapply Permutation_trans; [apply sorted_perm |].
    eapply Permutation_trans; [exact Hp |].
    apply Permutation_sym, sorted_perm.
Qed.
End SortedFacts.

(** ** Field bit positions *)

Lemma appends_lift_ok {A B} (r : exn + A) (a : A) (k : A -> Gen B) c l res :
  r = inr a ->
  appends (k a) c l res ->
  appends (bind (lift r) k) c l res.
Proof.
  intros -> Hk. exact (appends_bind (lift (inr a)) k [] [] a c l res
                         (appends_ret a) Hk).
Qed.

Lemma appends_lift_raise {A B} (r : exn + A) e (k : A -> Gen B) :
  r = inl e ->
  appends (bind (lift r) k) [] [] (inl e).
Proof.
  intros ->. apply appends_bind_raise. apply appends_raise.
Qed.

Lemma py_mod_ok a b : b <> 0 -> py_mod a b = inr (a mod b).
Proof.
  intros H. unfold py_mod. apply Z.eqb_neq in H. now rewrite H.
Qed.

Lemma flat_map_single {A B} (f : A -> B) (l : list A) :
  flat_map (fun x => [f x]) l = map f l.
Proof.
  induction l as [|x l IH]; simpl; [reflexivity | now rewrite IH].
Qed.

(** A bus width of zero makes [write_reg_field] raise before it emits
    anything. *)
Lemma write_reg_field_zero_bus self f r :
  busWidth self = 0 ->
  appends (write_reg_field self f r) [] [] (inl ZeroDivisionError).
Proof.
  intros Hbw. unfold write_reg_field.
  apply appends_lift_raise. unfold py_mod. now rewrite Hbw.
Qed.

(** What [write_reg_field] appends when the bus width is not zero:
    the declarations of its list [iter], in order. *)
Lemma write_reg_field_calls self f r :
  busWidth self <> 0 ->
  let adj := (addressOffset r * 8) mod busWidth self in
  let bitIndexL := bitOffset f + adj in
  let bitIndexH := bitOffset f + bitWidth f - 1 + adj in
  let const item :=
    write_decl {| decl_name := field_name f ++ fst item;
                  decl_value := PyInt (snd item);
                  decl_type := "natural";
                  decl_bitWidth := bitWidth f;
                  decl_specifier := "constant";
                  decl_alignLen := 50 |} in
  appends (write_reg_field self f r)
    (map const (if bitIndexH =? bitIndexL then [("_IND", bitIndexL)]
                else [("_L", bitIndexL); ("_H", bitIndexH)]))
    [] (inr tt).
Proof.
  intros Hbw adj bitIndexL bitIndexH const. unfold write_reg_field.
  eapply appends_lift_ok; [now apply py_mod_ok |].
  eapply appends_lift_ok; [now apply py_mod_ok |].
  fold adj bitIndexL bitIndexH.
  rewrite <- flat_map_single.
  apply appends_for_each with (res := fun _ => tt).
  intros item _. apply appends_vhdlGen.
Qed.

(** C1. With a bus width other than zero, [write_reg_field] emits for
    a field of [bitWidth] 1 exactly one constant, [<field>_IND], of
    value [bitOffset + (addressOffset * 8) mod busWidth]; for a field
    of [bitWidth] above 1 exactly two, [<field>_L] of that value [low]
    and [<field>_H] of value [low + bitWidth - 1]; and [low <= high]
    whenever [bitWidth] is at least 1. *)
Theorem write_reg_field_constants self f r :
  busWidth self <> 0 ->
  let low := bitOffset f + (addressOffset r * 8) mod busWidth self in
  let high := low + bitWidth f - 1 in
  let const suffix v :=
    write_decl {| decl_name := field_name f ++ suffix;
                  decl_value := PyInt v;
                  decl_type := "natural";
                  decl_bitWidth := bitWidth f;
                  decl_specifier := "constant";
                  decl_alignLen := 50 |} in
  (bitWidth f = 1 ->
   appends (write_reg_field self f r) [const "_IND" low] [] (inr tt))
  /\ (1 < bitWidth f ->
      appends (write_reg_field self f r)
        [const "_L" low; const "_H" high] [] (inr tt))
  /\ (1 <= bitWidth f -> low <= high).
Proof.
  intros Hbw low high const.
  pose proof (write_reg_field_calls self f r Hbw) as H. cbv zeta in H.
  fold low in H.
  replace (bitOffset f + bitWidth f - 1
           + (addressOffset r * 8) mod busWidth self) with high in H
    by (unfold high, low; lia).
  repeat split.
  - intros Hw. replace (high =? low) with true in H
      by (symmetry; apply Z.eqb_eq; unfold high; lia).
    exact H.
  - intros Hw. replace (high =? low) with false in H
      by (symmetry; apply Z.eqb_neq; unfold high; lia).
    exact H.
  - intros Hw. unfold high. lia.
Qed.

(** The example of the specification: [bitOffset] 3 and [bitWidth] 5
    in a register at [addressOffset] 4 on a 32-bit bus give
    [<field>_L = 3] and [<field>_H = 7]. *)
Lemma write_reg_field_constants_witness :
  let self := {| addrMap := None; fieldMap := None; busWidth := 32 |} in
  let f := {| field_name := "ENA"; bitOffset := 3; bitWidth := 5;
              resets := None; enumeratedValues := [] |} in
  let r := {| reg_name := "MODE"; description := ""; addressOffset := 4;
              field := [f] |} in
  let const suffix v :=
    write_decl {| decl_name := "ENA" ++ suffix;
                  decl_value := PyInt v;
                  decl_type := "natural";
                  decl_bitWidth := 5;
                  decl_specifier := "constant";
                  decl_alignLen := 50 |} in
  busWidth self <> 0
  /\ appends (write_reg_field self f r)
       [const "_L" 3; const "_H" 7] [] (inr tt).
Proof.
  intros self f r const.
  assert (Hbw : busWidth self <> 0) by (simpl; lia).
  split; [exact Hbw |].
  destruct (write_reg_field_constants self f r Hbw) as (_ & Hwide & _).
  apply Hwide. simpl. lia.
Defined.

(** ** Register addresses of a block *)

Lemma appends_for_each_vhdlGen {A} (l : list A) (c : A -> RenderCall) :
  appends (for_each l (fun x => vhdlGen (c x))) (map c l) [] (inr tt).
Proof.
  rewrite <- flat_map_single.
  apply appends_for_each with (res := fun _ => tt).
  intros x _. apply appends_vhdlGen.
Qed.

Lemma write_addrbl_regs_calls self block :
  appends (write_addrbl_regs self block)
    (map (fun reg =>
            write_decl
              {| decl_name := reg_name reg ++ "_ADR";
                 decl_value := PyInt (addressOffset reg + baseAddress block);
                 decl_type := "std_logic";
                 decl_bitWidth := 12;
                 decl_specifier := "constant";
                 decl_alignLen := 80 |})
       (sorted addressOffset (register block)))
    [] (inr tt).
Proof.
  unfold write_addrbl_regs. apply appends_for_each_vhdlGen.
Qed.

(** C3, as amended.  [write_addrbl_regs] emits one constant
    [<register>_ADR] per register, of value
    [addressOffset + block.baseAddress], typed as a 12-bit vector, in
    non-decreasing order of [addressOffset], registers of equal offset
    keeping the order of the input; when the offsets are pairwise
    distinct the order is strictly ascending and the same for every
    order of the input. *)
Theorem write_addrbl_regs_ascending self block :
  let regs := sorted addressOffset (register block) in
  let adr base reg :=
    write_decl {| decl_name := reg_name reg ++ "_ADR";
                  decl_value := PyInt (addressOffset reg + base);
                  decl_type := "std_logic";
                  decl_bitWidth := 12;
                  decl_specifier := "constant";
                  decl_alignLen := 80 |} in
  appends (write_addrbl_regs self block)
    (map (adr (baseAddress block)) regs) [] (inr tt)
  /\ Permutation regs (register block)
  /\ StronglySorted Z.le (map addressOffset regs)
  /\ (forall k,
        filter (fun reg => addressOffset reg =? k) regs
        = filter (fun reg => addressOffset reg =? k) (register block))
  /\ (NoDup (map addressOffset (register block)) ->
      StronglySorted Z.lt (map addressOffset regs)
      /\ forall block',
           Permutation (register block) (register block') ->
           appends (write_addrbl_regs self block')
             (map (adr (baseAddress block')) regs) [] (inr tt)).
Proof.
  intros regs adr. split; [| split; [| split; [| split]]].
  - apply write_addrbl_regs_calls.
  - apply sorted_perm.
  - apply sorted_ascending.
  - intros k. apply sorted_stable.
  - intros Hn. split.
    + now apply sorted_strict.
    + intros block' Hp. unfold regs.
      rewrite (sorted_perm_invariant addressOffset _ _ Hn Hp).
      apply write_addrbl_regs_calls.
Qed.

(** Three registers handed over out of order in a block at 0x1000:
    their addresses come out in strictly ascending order, the register
    at [addressOffset] 0x04 with the value 0x1004 of the
    specification's example, and another order of the same registers
    gives the same output. *)
Lemma write_addrbl_regs_ascending_witness :
  let self := {| addrMap := None; fieldMap := None; busWidth := 32 |} in
  let reg name offset := {| reg_name := name; description := "";
                            addressOffset := offset; field := [] |} in
  let block regs := {| block_name := "Control_registers";
                       baseAddress := 0x1000; range := 0x1000;
                       register := regs |} in
  let const name v :=
    write_decl {| decl_name := name;
                  decl_value := PyInt v;
                  decl_type := "std_logic";
                  decl_bitWidth := 12;
                  decl_specifier := "constant";
                  decl_alignLen := 80 |} in
  let given := [reg "COMMAND" 0x08; reg "DEVICE_ID" 0x00;
                reg "MODE" 0x04] in
  let other := [reg "MODE" 0x04; reg "COMMAND" 0x08;
                reg "DEVICE_ID" 0x00] in
  NoDup (map addressOffset (register (block given)))
  /\ Permutation (register (block given)) (register (block other))
  /\ appends (write_addrbl_regs self (block given))
       [const "DEVICE_ID_ADR" 0x1000; const "MODE_ADR" 0x1004;
        const "COMMAND_ADR" 0x1008] [] (inr tt)
  /\ StronglySorted Z.lt [0x00; 0x04; 0x08]
  /\ appends (write_addrbl_regs self (block other))
       [const "DEVICE_ID_ADR" 0x1000; const "MODE_ADR" 0x1004;
        const "COMMAND_ADR" 0x1008] [] (inr tt).
Proof.
  intros self reg block const given other.
  assert (Hn : NoDup (map addressOffset (register (block given)))).
  { simpl. repeat constructor; simpl; intuition discriminate. }
  assert (Hp : Permutation (register (block given))
                 (register (block other))).
  { simpl. unfold given, other.
    apply Permutation_sym. apply Permutation_cons_app with (l1 := [_; _]) (l2 := []).
    rewrite app_nil_r. apply Permutation_refl. }
  destruct (write_addrbl_regs_ascending self (block given))
    as (Hcalls & _ & _ & _ & Hstrict).
  destruct (Hstrict Hn) as (Hlt & Hinv).
  split; [exact Hn |]. split; [exact Hp |].
  split; [exact Hcalls |]. split; [exact Hlt |].
  exact (Hinv (block other) Hp).
Defined.

(** C3, as stated, fails: two registers at the same [addressOffset]
    come out with equal addresses, so not in strictly ascending order,
    and in the order of the input, so not independently of it. *)
Lemma write_addrbl_regs_ties :
  let self := {| addrMap := None; fieldMap := None; busWidth := 32 |} in
  let a := {| reg_name := "A"; description := ""; addressOffset := 4;
              field := [] |} in
  let b := {| reg_name := "B"; description := ""; addressOffset := 4;
              field := [] |} in
  let block regs := {| block_name := "BL"; baseAddress := 0x1000;
                       range := 0x1000; register := regs |} in
  let run regs :=
    emitted_decls (out (fst (write_addrbl_regs self (block regs)
                               init_state))) in
  map decl_name (run [a; b]) = ["A_ADR"; "B_ADR"]
  /\ map decl_value (run [a; b]) = [PyInt 0x1004; PyInt 0x1004]
  /\ ~ StronglySorted Z.lt (map addressOffset (sorted addressOffset [a; b]))
  /\ map decl_name (run [b; a]) = ["B_ADR"; "A_ADR"]
  /\ Permutation [a; b] [b; a]
  /\ run [a; b] <> run [b; a].
Proof.
  intros self a b block run. repeat split.
  - intros Hs. simpl in Hs. inversion Hs as [|? ? _ Hf]; subst.
    inversion Hf; subst. lia.
  - apply perm_swap.
  - intros Heq. vm_compute in Heq. discriminate.
Qed.

(** ** Enumerated values of a field *)

Lemma write_reg_enums_calls self f :
  enumeratedValues f <> [] ->
  appends (write_reg_enums self f)
    ([wr_nl;
      write_comment (dquote ++ field_name f ++ dquote
                       ++ " field enumerated values") 2 (Some true) None]
     ++ flat_map
          (fun es =>
             map (fun e =>
                    write_decl {| decl_name := enum_name e;
                                  decl_value := PyInt (enum_value e);
                                  decl_type := "std_logic";
                                  decl_bitWidth := bitWidth f;
                                  decl_specifier := "constant";
                                  decl_alignLen := 50 |})
               (sorted enum_value (enumeratedValue es)))
          (enumeratedValues f))
    [] (inr RetNone).
Proof.
  intros Hne. unfold write_reg_enums.
  destruct (enumeratedValues f) as [|es0 ess] eqn:E; [contradiction |].
  change [wr_nl; write_comment ?t 2 (Some true) None]
    with ([wr_nl] ++ [write_comment t 2 (Some true) None])%list.
  rewrite <- !app_assoc.
  eapply appends_step; [apply appends_vhdlGen |].
  eapply appends_step; [apply appends_vhdlGen |].
  rewrite <- (app_nil_r (flat_map _ _)).
  eapply appends_step; [| apply appends_ret].
  apply appends_for_each with (res := fun _ => tt).
  intros es _. apply appends_for_each_vhdlGen.
Qed.

(** C5, as amended.  [write_reg_enums] renders, after a blank line and
    a comment, one constant per enumerated value, named by the value's
    own name and typed with the field's [bitWidth]; within each
    enumerated-value set the constants are in non-decreasing order of
    [value], equal values keeping the order of the input, and in
    strictly ascending order when the values of the set are pairwise
    distinct.  A field with an empty collection contributes nothing
    and raises nothing. *)
Theorem write_reg_enums_constants self f :
  let const e :=
    write_decl {| decl_name := enum_name e;
                  decl_value := PyInt (enum_value e);
                  decl_type := "std_logic";
                  decl_bitWidth := bitWidth f;
                  decl_specifier := "constant";
                  decl_alignLen := 50 |} in
  let ordered es := sorted enum_value (enumeratedValue es) in
  (enumeratedValues f = [] ->
   appends (write_reg_enums self f) [] [] (inr RetFalse))
  /\ (enumeratedValues f <> [] ->
      appends (write_reg_enums self f)
        ([wr_nl;
          write_comment (dquote ++ field_name f ++ dquote
                           ++ " field enumerated values")
            2 (Some true) None]
         ++ flat_map (fun es => map const (ordered es))
              (enumeratedValues f))
        [] (inr RetNone))
  /\ (forall es,
        Permutation (ordered es) (enumeratedValue es)
        /\ StronglySorted Z.le (map enum_value (ordered es))
        /\ (forall v,
              filter (fun e => enum_value e =? v) (ordered es)
              = filter (fun e => enum_value e =? v) (enumeratedValue es))
        /\ (NoDup (map enum_value (enumeratedValue es)) ->
            StronglySorted Z.lt (map enum_value (ordered es)))).
Proof.
  intros const ordered. repeat split.
  - intros He. unfold write_reg_enums. rewrite He. apply appends_ret.
  - apply write_reg_enums_calls.
  - apply sorted_perm.
  - apply sorted_ascending.
  - intros v. apply sorted_stable.
  - apply sorted_strict.
Qed.

Lemma write_reg_enums_constants_witness :
  let self := {| addrMap := None; fieldMap := None; busWidth := 32 |} in
  let es := {| enumeratedValue :=
                 [ {| enum_name := "LOOPBACK"; enum_value := 2 |};
                   {| enum_name := "NORMAL"; enum_value := 0 |};
                   {| enum_name := "LISTEN"; enum_value := 1 |} ] |} in
  let f := {| field_name := "MODE"; bitOffset := 0; bitWidth := 2;
              resets := None; enumeratedValues := [es] |} in
  let const n v :=
    write_decl {| decl_name := n;
                  decl_value := PyInt v;
                  decl_type := "std_logic";
                  decl_bitWidth := 2;
                  decl_specifier := "constant";
                  decl_alignLen := 50 |} in
  enumeratedValues f <> []
  /\ NoDup (map enum_value (enumeratedValue es))
  /\ appends (write_reg_enums self f)
       [wr_nl;
        write_comment (dquote ++ "MODE" ++ dquote
                         ++ " field enumerated values") 2 (Some true) None;
        const "NORMAL" 0; const "LISTEN" 1; const "LOOPBACK" 2]
       [] (inr RetNone)
  /\ StronglySorted Z.lt [0; 1; 2].
Proof.
  intros self es f const.
  assert (Hne : enumeratedValues f <> []) by discriminate.
  assert (Hn : NoDup (map enum_value (enumeratedValue es))).
  { simpl. repeat constructor; simpl; intuition discriminate. }
  destruct (write_reg_enums_constants self f) as (_ & Hcalls & Hsets).
  destruct (Hsets es) as (_ & _ & _ & Hstrict).
  split; [exact Hne |]. split; [exact Hn |].
  split; [exact (Hcalls Hne) | exact (Hstrict Hn)].
Defined.

(** C5, as stated, fails: two enumerated values of one set with the
    same [value] come out next to each other, so the constants are
    not in strictly ascending order. *)
Lemma write_reg_enums_ties :
  let self := {| addrMap := None; fieldMap := None; busWidth := 32 |} in
  let es := {| enumeratedValue :=
                 [ {| enum_name := "ENABLED"; enum_value := 1 |};
                   {| enum_name := "DISABLED"; enum_value := 0 |};
                   {| enum_name := "ON"; enum_value := 1 |} ] |} in
  let f := {| field_name := "ENA"; bitOffset := 0; bitWidth := 1;
              resets := None; enumeratedValues := [es] |} in
  let decls :=
    emitted_decls (out (fst (write_reg_enums self f init_state))) in
  map decl_name decls = ["DISABLED"; "ENABLED"; "ON"]
  /\ map decl_value decls = [PyInt 0; PyInt 1; PyInt 1]
  /\ ~ StronglySorted Z.lt
         (map enum_value (sorted enum_value (enumeratedValue es))).
Proof.
  intros self es f decls. repeat split.
  intros Hs. simpl in Hs.
  inversion Hs as [|? ? Hs' _]; subst.
  inversion Hs' as [|? ? _ Hf]; subst.
  inversion Hf; subst. lia.
Qed.

(** ** Reset value of a field *)

Lemma write_res_vals_cases self f :
  let const r :=
    write_decl {| decl_name := field_name f ++ "_RSTVAL";
                  decl_value := PyInt (reset_value r);
                  decl_type := "std_logic";
                  decl_bitWidth := bitWidth f;
                  decl_specifier := "constant";
                  decl_alignLen := 50 |} in
  match resets f with
  | Some {| reset := Some r |} =>
      appends (write_res_vals self f) [const r] [] (inr RetNone)
  | _ => appends (write_res_vals self f) [] [] (inr RetFalse)
  end.
Proof.
  intros const. unfold write_res_vals.
  destruct (resets f) as [[[r|]]|]; simpl; try apply appends_ret.
  change [const r] with ([const r] ++ [])%list.
  eapply appends_step; [apply appends_vhdlGen | apply appends_ret].
Qed.

(** C6.  [write_res_vals] emits exactly one constant, [<field>_RSTVAL],
    holding the bound reset value and typed with the field's
    [bitWidth], when the field has a [resets] object carrying a
    [reset]; when [resets] is absent, or present without a [reset], it
    emits nothing.  Neither case raises, and the number of constants
    emitted is one if and only if the reset value is bound. *)
Theorem write_res_vals_constant self f :
  let const r :=
    write_decl {| decl_name := field_name f ++ "_RSTVAL";
                  decl_value := PyInt (reset_value r);
                  decl_type := "std_logic";
                  decl_bitWidth := bitWidth f;
                  decl_specifier := "constant";
                  decl_alignLen := 50 |} in
  let bound r := exists rs, resets f = Some rs /\ reset rs = Some r in
  (forall r, bound r ->
     appends (write_res_vals self f) [const r] [] (inr RetNone))
  /\ (resets f = None ->
      appends (write_res_vals self f) [] [] (inr RetFalse))
  /\ (forall rs, resets f = Some rs -> reset rs = None ->
      appends (write_res_vals self f) [] [] (inr RetFalse))
  /\ exists calls res,
       appends (write_res_vals self f) calls [] (inr res)
       /\ (List.length (emitted_decls calls) = 1%nat <-> exists r, bound r)
       /\ (List.length (emitted_decls calls) = 0%nat <-> ~ exists r, bound r).
Proof.
  intros const bound. subst bound. cbv beta.
  pose proof (write_res_vals_cases self f) as Hc. fold const in Hc.
  destruct (resets f) as [[[r|]]|] eqn:Ers; simpl in Hc.
  - split; [| split; [| split]].
    + intros r' (rs' & Hrs & Hr). inversion Hrs; subst rs'.
      simpl in Hr. inversion Hr; subst r'. exact Hc.
    + discriminate.
    + intros rs' Hrs Hr. inversion Hrs; subst rs'. discriminate.
    + exists [const r], RetNone. split; [exact Hc |]. split; split.
      * intros _. exists r. eexists. split; reflexivity.
      * reflexivity.
      * discriminate.
      * intros Hnone. exfalso. apply Hnone.
        exists r. eexists. split; reflexivity.
  - split; [| split; [| split]].
    + intros r' (rs' & Hrs & Hr). inversion Hrs; subst rs'. discriminate.
    + discriminate.
    + intros rs' _ _. exact Hc.
    + exists [], RetFalse. split; [exact Hc |]. split; split.
      * discriminate.
      * intros (r' & rs' & Hrs & Hr). inversion Hrs; subst rs'.
        discriminate.
      * intros _ (r' & rs' & Hrs & Hr). inversion Hrs; subst rs'.
        discriminate.
      * reflexivity.
  - split; [| split; [| split]].
    + intros r' (rs' & Hrs & _). discriminate.
    + intros _. exact Hc.
    + discriminate.
    + exists [], RetFalse. split; [exact Hc |]. split; split.
      * discriminate.
      * intros (r' & rs' & Hrs & _). discriminate.
      * intros _ (r' & rs' & Hrs & _). discriminate.
      * reflexivity.
Qed.

Lemma write_res_vals_constant_witness :
  let self := {| addrMap := None; fieldMap := None; busWidth := 32 |} in
  let f := {| field_name := "ENA"; bitOffset := 3; bitWidth := 5;
              resets := Some {| reset := Some {| reset_value := 9 |} |};
              enumeratedValues := [] |} in
  (exists rs, resets f = Some rs /\ reset rs = Some {| reset_value := 9 |})
  /\ appends (write_res_vals self f)
       [write_decl {| decl_name := "ENA_RSTVAL";
                      decl_value := PyInt 9;
                      decl_type := "std_logic";
                      decl_bitWidth := 5;
                      decl_specifier := "constant";
                      decl_alignLen := 50 |}]
       [] (inr RetNone).
Proof.
  intros self f.
  assert (Hb : exists rs, resets f = Some rs
                          /\ reset rs = Some {| reset_value := 9 |}).
  { eexists. split; reflexivity. }
  split; [exact Hb |].
  destruct (write_res_vals_constant self f) as (Hbound & _).
  exact (Hbound _ Hb).
Defined.

(** ** The package *)

Lemma appends_vhdlGen_then {B} c (k : unit -> Gen B) cs l r :
  appends (k tt) cs l r ->
  appends (bind (vhdlGen c) k) (c :: cs) l r.
Proof.
  intros Hk. exact (appends_step (vhdlGen c) k [c] tt cs l r
                      (appends_vhdlGen c) Hk).
Qed.

Lemma appends_print_then {B} s (k : unit -> Gen B) cs l r :
  appends (k tt) cs l r ->
  appends (bind (print s) k) cs (s :: l) r.
Proof.
  intros Hk. exact (appends_bind (print s) k [] [s] tt cs l r
                      (appends_print s) Hk).
Qed.

Lemma appends_ret_then {A B} (a : A) (k : A -> Gen B) cs l r :
  appends (k a) cs l r ->
  appends (bind (ret a) k) cs l r.
Proof.
  intros Hk. exact (appends_bind (ret a) k [] [] a cs l r
                      (appends_ret a) Hk).
Qed.

Lemma appends_last c : appends (vhdlGen c) [c] [] (inr tt).
Proof. apply appends_vhdlGen. Qed.

Ltac run_calls :=
  repeat first
    [ apply appends_vhdlGen_then
    | apply appends_print_then
    | apply appends_ret_then
    | apply appends_last
    | apply appends_ret ].

(** C7.  With neither map supplied, [create_addrMap_package] raises
    nothing and emits the framing alone: dividers, the autogenerated
    comment, the include directive and the opening and closing of the
    package, with no constant between them. *)
Theorem create_addrMap_package_no_maps bw name :
  let self := {| addrMap := None; fieldMap := None; busWidth := bw |} in
  let framing :=
    [wr_nl;
     write_comm_line (Some 0);
     write_comment "This file is autogenerated, DO NOT EDIT!"
       0 (Some true) None;
     write_comm_line (Some 0);
     wr_nl;
     create_includes ["std_logic_1164.all"];
     wr_nl;
     create_package name true;
     wr_nl;
     create_package name false] in
  appends (create_addrMap_package self name) framing [] (inr tt)
  /\ emitted_decls framing = [].
Proof.
  intros self framing. split; [| reflexivity].
  unfold create_addrMap_package, framing. simpl. run_calls.
Qed.

(** C8.  What [create_addrMap_package] appends to the buffer, what it
    prints and how it ends are determined by the generator's inputs
    (the maps, the bus width, the package name) and not by the state
    it starts from; so two invocations with the same inputs on fresh
    generators leave the same output sequence. *)
Theorem create_addrMap_package_deterministic self name :
  exists calls lines r,
    (forall st,
       create_addrMap_package self name st = (extend st calls lines, r))
    /\ create_addrMap_package self name init_state
       = ({| out := calls; stdout := lines |}, r).
Proof.
  assert (H : framed (create_addrMap_package self name)).
  { unfold create_addrMap_package.
    destruct (addrMap self), (fieldMap self);
      repeat (apply framed_bind; [| intro]); auto with framed. }
  destruct H as (calls & lines & r & H).
  exists calls, lines, r. split; [exact H | now apply appends_init].
Qed.

(** ** The single-register entry point *)

(** C9.  Whatever the register and the three switches, [write_reg]
    raises [TypeError] and emits nothing: it hands five positional
    arguments, [self] first, to [__write_reg], which takes four after
    [self].  The switches it passes after the register are
    [writeFields], [writeEnums], [writeRstVal], its own parameters
    being in the order [writeFields], [writeRstVal], [writeEnums]. *)
Theorem write_reg_raises self reg writeFields writeRstVal writeEnums st :
  write_reg self reg writeFields writeRstVal writeEnums st
  = (st, inl TypeError)
  /\ List.length
       (write_reg_args self reg writeFields writeRstVal writeEnums)
     = 5%nat
  /\ call__write_reg self
       (tl (write_reg_args self reg writeFields writeRstVal writeEnums))
     = __write_reg self reg writeFields writeEnums writeRstVal.
Proof.
  split; [reflexivity |]. split; reflexivity.
Qed.

(** ** The block-select constant *)

Lemma write_addrbl_head_calls self block q :
  py_truediv (baseAddress block) (range block) = inr q ->
  appends (write_addrbl_head self block)
    [write_comm_line None;
     write_comment ("Address block: " ++ block_name block) 2 None None;
     write_comm_line None;
     write_decl {| decl_name := block_name block ++ "_BLOCK";
                   decl_value := PyFloat q;
                   decl_type := "std_logic";
                   decl_bitWidth := 4;
                   decl_specifier := "constant";
                   decl_alignLen := 80 |};
     wr_nl]
    [] (inr tt).
Proof.
  intros Hq. unfold write_addrbl_head.
  do 3 apply appends_vhdlGen_then.
  eapply appends_lift_ok; [exact Hq |]. run_calls.
Qed.

Lemma write_addrbl_head_raises self block e :
  py_truediv (baseAddress block) (range block) = inl e ->
  appends (write_addrbl_head self block)
    [write_comm_line None;
     write_comment ("Address block: " ++ block_name block) 2 None None;
     write_comm_line None]
    [] (inl e).
Proof.
  intros Hq. unfold write_addrbl_head.
  do 3 apply appends_vhdlGen_then.
  now apply appends_lift_raise.
Qed.

Lemma py_truediv_zero a : py_truediv a 0 = inl ZeroDivisionError.
Proof. reflexivity. Qed.

Lemma py_truediv_nonzero a b :
  b <> 0 -> py_truediv a b <> inl ZeroDivisionError.
Proof.
  intros Hb. unfold py_truediv. apply Z.eqb_neq in Hb. rewrite Hb.
  destruct (a =? 0); [discriminate |].
  destruct (SFdiv 53 1024 (float_of_int a) (float_of_int b)); discriminate.
Qed.

(** On small operands [py_truediv] rounds as true division does. *)
Lemma py_truediv_small_operands : truediv_rounds_upto 96 24 = true.
Proof. vm_compute. reflexivity. Qed.

(** *** True division below 2^53

    For operands of fewer than 54 bits the division of [SFdiv] shifts
    the dividend, divides, and rounds a quotient of 53 or 54 bits:
    the steps are followed through [SFdiv_core_binary] and
    [binary_round_aux]. *)

Lemma digits2_pos_bounds p :
  2 ^ (Z.pos (digits2_pos p) - 1) <= Z.pos p < 2 ^ Z.pos (digits2_pos p).
Proof.
  induction p as [p IH|p IH|]; cbn [digits2_pos].
  - rewrite Pos2Z.inj_succ, Pos2Z.inj_xI.
    replace (Z.succ (Z.pos (digits2_pos p)) - 1)
      with (Z.succ (Z.pos (digits2_pos p) - 1)) by lia.
    rewrite !Z.pow_succ_r by lia.
    revert IH. generalize (2 ^ (Z.pos (digits2_pos p) - 1)).
    generalize (2 ^ Z.pos (digits2_pos p)). lia.
  - rewrite Pos2Z.inj_succ. change (Z.pos p~0) with (2 * Z.pos p).
    replace (Z.succ (Z.pos (digits2_pos p)) - 1)
      with (Z.succ (Z.pos (digits2_pos p) - 1)) by lia.
    rewrite !Z.pow_succ_r by lia.
    revert IH. generalize (2 ^ (Z.pos (digits2_pos p) - 1)).
    generalize (2 ^ Z.pos (digits2_pos p)). lia.
  - simpl. lia.
Qed.

Lemma Zdigits2_unique z k :
  2 ^ (k - 1) <= z < 2 ^ k -> 1 <= k -> Zdigits2 z = k.
Proof.
  intros Hz Hk.
  assert (Hpos : 0 < z).
  { assert (0 < 2 ^ (k - 1)) by (apply Z.pow_pos_nonneg; lia). lia. }
  destruct z as [|p|p]; try lia. cbn [Zdigits2].
  pose proof (digits2_pos_bounds p) as Hd.
  destruct (Z.lt_trichotomy (Z.pos (digits2_pos p)) k) as [Hlt|[Heq|Hgt]].
  - assert (2 ^ Z.pos (digits2_pos p) <= 2 ^ (k - 1))
      by (apply Z.pow_le_mono_r; lia). lia.
  - exact Heq.
  - assert (2 ^ k <= 2 ^ (Z.pos (digits2_pos p) - 1))
      by (apply Z.pow_le_mono_r; lia). lia.
Qed.

Lemma new_location_spec p2 r :
  0 < p2 ->
  new_location p2 r
  = if r =? 0 then loc_Exact else loc_Inexact (2 * r ?= p2).
Proof.
  intros Hp. unfold new_location.
  destruct (Z.even p2) eqn:Ev.
  - reflexivity.
  - unfold new_location_odd. destruct (r =? 0); [reflexivity |].
    f_equal.
    assert (Hodd : Z.odd p2 = true) by (rewrite <- Z.negb_even, Ev; reflexivity).
    apply Z.odd_spec in Hodd. destruct Hodd as (k & Hk).
    change (Z.pos 2 * r) with (2 * r). change (Z.pos 1) with 1.
    destruct (Z.compare_spec (2 * r + 1) p2);
      destruct (Z.compare_spec (2 * r) p2); try reflexivity; lia.
Qed.

Lemma shr_1_spec m r s :
  0 <= m ->
  shr_1 {| shr_m := m; shr_r := r; shr_s := s |}
  = {| shr_m := Z.div2 m; shr_r := Z.odd m; shr_s := r || s |}.
Proof.
  intros Hm. destruct m as [|[p|p|]|]; try lia; reflexivity.
Qed.

Lemma shr_fexp_53 M e l :
  2 ^ 52 <= M < 2 ^ 53 -> -1074 <= e ->
  shr_fexp 53 1024 M e l = (shr_record_of_loc M l, e).
Proof.
  intros HM He. unfold shr_fexp.
  rewrite (Zdigits2_unique M 53) by (simpl; lia).
  replace (fexp 53 1024 (53 + e) - e) with 0
    by (unfold fexp, emin; lia).
  reflexivity.
Qed.

Lemma shr_fexp_54 M e l :
  2 ^ 53 <= M < 2 ^ 54 -> -1075 <= e ->
  shr_fexp 53 1024 M e l = (shr_1 (shr_record_of_loc M l), e + 1).
Proof.
  intros HM He. unfold shr_fexp.
  rewrite (Zdigits2_unique M 54) by (simpl; lia).
  replace (fexp 53 1024 (54 + e) - e) with 1
    by (unfold fexp, emin; lia).
  reflexivity.
Qed.

Lemma round_finish sx M e :
  2 ^ 52 <= M <= 2 ^ 53 -> -1074 <= e <= 970 ->
  (let '(mrs, e2) := shr_fexp 53 1024 M e loc_Exact in
   match shr_m mrs with
   | Z0 => S754_zero sx
   | Zpos m => if e2 <=? 1024 - 53 then S754_finite sx m e2
               else S754_infinity sx
   | Zneg _ => S754_nan
   end)
  = if M =? 2 ^ 53 then S754_finite sx (Z.to_pos (2 ^ 52)) (e + 1)
    else S754_finite sx (Z.to_pos M) e.
Proof.
  intros HM He. destruct (M =? 2 ^ 53) eqn:E.
  - apply Z.eqb_eq in E. subst M.
    rewrite shr_fexp_54 by (simpl; lia).
    cbn [shr_record_of_loc shr_1 shr_m].
    change (shr_m (shr_1 {| shr_m := 2 ^ 53; shr_r := false;
                            shr_s := false |}))
      with (2 ^ 52).
    change (2 ^ 52) with (Z.pos (Z.to_pos (2 ^ 52))) at 1.
    cbv iota.
    replace (e + 1 <=? 1024 - 53) with true
      by (symmetry; apply Z.leb_le; lia).
    reflexivity.
  - apply Z.eqb_neq in E.
    rewrite shr_fexp_53 by lia.
    cbn [shr_record_of_loc shr_m].
    assert (Hpos : 0 < M).
    { assert (0 < 2 ^ 52) by reflexivity. lia. }
    destruct M as [|m|m]; try lia.
    replace (e <=? 1024 - 53) with true
      by (symmetry; apply Z.leb_le; lia).
    reflexivity.
Qed.

Lemma loc_of_shr_record_of_loc M l :
  loc_of_shr_record (shr_record_of_loc M l) = l.
Proof. destruct l as [|[]]; reflexivity. Qed.

Lemma shr_m_of_loc M l : shr_m (shr_record_of_loc M l) = M.
Proof. destruct l as [|[]]; reflexivity. Qed.

Lemma digits2_pos_le_53 p :
  Z.pos p < 2 ^ 53 -> 1 <= Z.pos (digits2_pos p) <= 53.
Proof.
  intros Hp. pose proof (digits2_pos_bounds p) as (Hlo & _).
  split; [lia |].
  destruct (Z_le_gt_dec (Z.pos (digits2_pos p)) 53) as [H|H]; [exact H |].
  assert (2 ^ 53 <= 2 ^ (Z.pos (digits2_pos p) - 1))
    by (apply Z.pow_le_mono_r; lia).
  lia.
Qed.

Lemma SFdiv_core_small p1 p2 :
  Z.pos p1 < 2 ^ 53 -> Z.pos p2 < 2 ^ 53 ->
  let s := 53 + Z.pos (digits2_pos p2) - Z.pos (digits2_pos p1) in
  SFdiv_core_binary 53 1024 (Z.pos p1) 0 (Z.pos p2) 0
  = ((Z.pos p1 * 2 ^ s) / Z.pos p2, - s,
     new_location (Z.pos p2) ((Z.pos p1 * 2 ^ s) mod Z.pos p2)).
Proof.
  intros H1 H2 s.
  pose proof (digits2_pos_le_53 p1 H1) as Hd1.
  pose proof (digits2_pos_le_53 p2 H2) as Hd2.
  unfold SFdiv_core_binary. cbn [Zdigits2].
  replace (Z.min (fexp 53 1024 (Z.pos (digits2_pos p1) + 0
                                - (Z.pos (digits2_pos p2) + 0))) (0 - 0))
    with (- s) by (unfold fexp, emin, s; lia).
  replace (0 - 0 - - s) with s by lia.
  assert (Hs : 1 <= s) by (unfold s; lia).
  destruct s as [|ps|ps] eqn:Es; try lia.
  rewrite Z.shiftl_mul_pow2 by lia.
  unfold Z.div, Z.modulo.
  destruct (Z.div_eucl (Z.pos p1 * 2 ^ Z.pos ps) (Z.pos p2)) as [q r].
  reflexivity.
Qed.

(** The quotient of two positive integers below 2^53, as [SFdiv]
    rounds it: a finite float [m * 2^e] on the grid of step [2^-K]
    that is nearest to the quotient, the grid being finer than
    [1 / p2]. *)
Lemma SFdiv_small sx sy p1 p2 :
  Z.pos p1 < 2 ^ 53 -> Z.pos p2 < 2 ^ 53 ->
  exists m e K,
    SFdiv 53 1024 (S754_finite sx p1 0) (S754_finite sy p2 0)
    = S754_finite (xorb sx sy) m e
    /\ 0 <= K
    /\ (e = - K \/ e = 1 - K)
    /\ Z.abs (2 * (Z.pos m * 2 ^ (e + K)) * Z.pos p2
              - 2 ^ (K + 1) * Z.pos p1) <= Z.pos p2
    /\ Z.pos p2 < 2 ^ (K + 1)
    /\ 2 ^ 52 * Z.pos p2 <= 2 ^ K * Z.pos p1.
Proof.
  intros H1 H2.
  pose proof (digits2_pos_le_53 p1 H1) as Hd1.
  pose proof (digits2_pos_le_53 p2 H2) as Hd2.
  pose proof (digits2_pos_bounds p1) as Hb1.
  pose proof (digits2_pos_bounds p2) as Hb2.
  cbn [SFdiv]. rewrite (SFdiv_core_small p1 p2 H1 H2). cbv zeta.
  set (d1 := Z.pos (digits2_pos p1)) in *.
  set (d2 := Z.pos (digits2_pos p2)) in *.
  set (s := 53 + d2 - d1).
  assert (Hs : 1 <= s <= 105) by (unfold s; lia).
  set (X := Z.pos p1 * 2 ^ s).
  assert (HX : X = Z.pos p2 * (X / Z.pos p2) + X mod Z.pos p2)
    by (apply Z_div_mod_eq_full).
  assert (Hr : 0 <= X mod Z.pos p2 < Z.pos p2)
    by (apply Z.mod_pos_bound; lia).
  assert (Hp52 : 2 ^ (d1 - 1) * 2 ^ s = 2 ^ 52 * 2 ^ d2).
  { rewrite <- !Z.pow_add_r by lia. f_equal. unfold s. lia. }
  assert (Hp54 : 2 ^ d1 * 2 ^ s = 2 ^ 54 * 2 ^ (d2 - 1)).
  { rewrite <- !Z.pow_add_r by lia. f_equal. unfold s. lia. }
  assert (Hpow : 0 < 2 ^ s) by (apply Z.pow_pos_nonneg; lia).
  assert (Hq : 2 ^ 52 <= X / Z.pos p2 < 2 ^ 54).
  { split.
    - apply Z.div_le_lower_bound; [lia |]. unfold X. nia.
    - apply Z.div_lt_upper_bound; [lia |]. unfold X. nia. }
  set (q := X / Z.pos p2) in *. set (r := X mod Z.pos p2) in *.
  clearbody q r.
  rewrite new_location_spec by lia.
  unfold binary_round_aux.
  destruct (Z_lt_ge_dec q (2 ^ 53)) as [Hq53|Hq54].
  - (* a quotient of 53 digits is not shifted *)
    rewrite shr_fexp_53 by lia.
    rewrite shr_m_of_loc, loc_of_shr_record_of_loc.
    set (M := round_nearest_even q _).
    assert (HM : (M = q /\ 2 * r <= Z.pos p2)
                 \/ (M = q + 1 /\ Z.pos p2 <= 2 * r)).
    { unfold M. destruct (r =? 0) eqn:Er.
      - apply Z.eqb_eq in Er. left. cbn [round_nearest_even]. lia.
      - cbn [round_nearest_even].
        destruct (Z.compare_spec (2 * r) (Z.pos p2)).
        + destruct (Z.even q); [left | right]; lia.
        + left. lia.
        + right. change (Z.pos 1) with 1. lia. }
    rewrite round_finish by lia.
    destruct (M =? 2 ^ 53) eqn:EM.
    + apply Z.eqb_eq in EM.
      exists (Z.to_pos (2 ^ 52)), (- s + 1), s.
      split; [reflexivity |]. split; [lia |]. split; [right; lia |].
      replace (- s + 1 + s) with 1 by lia.
      change (Z.pos (Z.to_pos (2 ^ 52)) * 2 ^ 1) with (2 ^ 53).
      rewrite <- EM. rewrite Z.pow_add_r by lia.
      split; [| split; [nia |]]; unfold X in *; nia.
    + exists (Z.to_pos M), (- s), s.
      split; [reflexivity |]. split; [lia |]. split; [left; lia |].
      replace (- s + s) with 0 by lia.
      rewrite Z2Pos.id by lia. rewrite Z.pow_add_r by lia.
      split; [| split; [nia |]]; unfold X in *; nia.
  - (* a quotient of 54 digits is shifted by one *)
    rewrite shr_fexp_54 by lia.
    assert (Hrec : shr_1 (shr_record_of_loc q
                            (if r =? 0 then loc_Exact
                             else loc_Inexact (2 * r ?= Z.pos p2)))
                   = {| shr_m := Z.div2 q; shr_r := Z.odd q;
                        shr_s := negb (r =? 0) |}).
    { destruct (r =? 0); [| destruct (2 * r ?= Z.pos p2)];
        cbn [shr_record_of_loc]; rewrite shr_1_spec by lia; reflexivity. }
    rewrite Hrec. cbn [shr_m].
    pose proof (Z.div2_odd q) as Hq2.
    set (h := Z.div2 q) in *.
    set (M := round_nearest_even h _).
    assert (HM : (M = h /\ (Z.odd q = false \/ r = 0))
                 \/ (M = h + 1 /\ Z.odd q = true)).
    { unfold M. destruct (Z.odd q); destruct (r =? 0) eqn:Er;
        cbn [negb loc_of_shr_record round_nearest_even].
      - apply Z.eqb_eq in Er.
        destruct (Z.even h); [left | right]; auto.
      - right. auto.
      - left. auto.
      - left. auto. }
    assert (Hp2 : Z.pos p2 < 2 ^ s).
    { destruct (Z_lt_ge_dec (Z.pos p2) (2 ^ s)) as [Hlt|Hge]; [exact Hlt |].
      exfalso. unfold X in HX. nia. }
    assert (Hh : 2 ^ 52 <= h < 2 ^ 53).
    { change (2 ^ 53) with (2 * 2 ^ 52) in Hq54.
      change (2 ^ 54) with (2 * 2 ^ 53) in Hq.
      destruct (Z.odd q); cbn [Z.b2z] in Hq2; lia. }
    rewrite round_finish; [| destruct HM as [(-> & _)|(-> & _)]; lia | lia].
    destruct (M =? 2 ^ 53) eqn:EM.
    + apply Z.eqb_eq in EM.
      exists (Z.to_pos (2 ^ 52)), (- s + 1 + 1), (s - 1).
      split; [reflexivity |]. split; [lia |]. split; [right; lia |].
      replace (- s + 1 + 1 + (s - 1)) with 1 by lia.
      replace (s - 1 + 1) with s by lia.
      change (Z.pos (Z.to_pos (2 ^ 52)) * 2 ^ 1) with (2 ^ 53).
      rewrite <- EM.
      assert (Hpw : 2 ^ s = 2 * 2 ^ (s - 1)).
      { rewrite <- Z.pow_succ_r by lia. f_equal. lia. }
      split; [| split; [exact Hp2 |]]; unfold X in *;
        destruct (Z.odd q); cbn [Z.b2z] in Hq2; nia.
    + exists (Z.to_pos M), (- s + 1), (s - 1).
      split; [reflexivity |]. split; [lia |]. split; [left; lia |].
      replace (- s + 1 + (s - 1)) with 0 by lia.
      replace (s - 1 + 1) with s by lia.
      rewrite Z2Pos.id by (destruct HM as [(HMe & _)|(HMe & _)]; lia).
      assert (Hpw : 2 ^ s = 2 * 2 ^ (s - 1)).
      { rewrite <- Z.pow_succ_r by lia. f_equal. lia. }
      split; [| split; [exact Hp2 |]]; unfold X in *;
        destruct (Z.odd q); cbn [Z.b2z] in Hq2; nia.
Qed.

Lemma float_of_int_sign a :
  a <> 0 -> float_of_int a = S754_finite (a <? 0) (Z.to_pos (Z.abs a)) 0.
Proof. destruct a; [congruence | reflexivity | reflexivity]. Qed.

(** True division of operands below 2^53 in magnitude returns a
    finite double: [m * 2^e], with the sign of the quotient, nearest
    to the quotient on the grid of step [2^-K]. *)
Lemma py_truediv_small a b :
  a <> 0 -> b <> 0 -> Z.abs a < 2 ^ 53 -> Z.abs b < 2 ^ 53 ->
  exists m e K,
    py_truediv a b = inr (S754_finite (xorb (a <? 0) (b <? 0)) m e)
    /\ 0 <= K
    /\ (e = - K \/ e = 1 - K)
    /\ Z.abs (2 * (Z.pos m * 2 ^ (e + K)) * Z.abs b
              - 2 ^ (K + 1) * Z.abs a) <= Z.abs b
    /\ Z.abs b < 2 ^ (K + 1)
    /\ 2 ^ 52 * Z.abs b <= 2 ^ K * Z.abs a.
Proof.
  intros Ha Hb Ha53 Hb53.
  assert (Hpa : Z.pos (Z.to_pos (Z.abs a)) = Z.abs a)
    by (apply Z2Pos.id; lia).
  assert (Hpb : Z.pos (Z.to_pos (Z.abs b)) = Z.abs b)
    by (apply Z2Pos.id; lia).
  destruct (SFdiv_small (a <? 0) (b <? 0) (Z.to_pos (Z.abs a))
              (Z.to_pos (Z.abs b)))
    as (m & e & K & Hdiv & HK & He & Hnear & Hgrid & Hmag);
    [lia | lia |].
  rewrite Hpa, Hpb in *.
  exists m, e, K. split; [| auto].
  unfold py_truediv.
  apply Z.eqb_neq in Ha, Hb. rewrite Ha, Hb.
  apply Z.eqb_neq in Ha, Hb.
  rewrite !float_of_int_sign by assumption. rewrite Hdiv. reflexivity.
Qed.

(** The grid point [M / 2^K] nearest to [p1 / p2] is a whole number
    only if [p2] divides [p1], when the grid is finer than [1 / p2]. *)
Lemma nearest_whole_divides M K n p1 p2 :
  0 <= K -> 0 < p2 ->
  Z.abs (2 * M * p2 - 2 ^ (K + 1) * p1) <= p2 ->
  p2 < 2 ^ (K + 1) ->
  M = n * 2 ^ K ->
  p1 = n * p2.
Proof.
  intros HK Hp2 Hnear Hgrid HM.
  rewrite Z.pow_add_r in * by lia. change (2 ^ 1) with 2 in *.
  assert (Hpow : 0 < 2 ^ K) by (apply Z.pow_pos_nonneg; lia).
  subst M. set (P := 2 ^ K) in *. clearbody P.
  set (D := n * p2 - p1).
  assert (HD : 2 * (n * P) * p2 - P * 2 * p1 = 2 * P * D)
    by (unfold D; ring).
  rewrite HD in Hnear.
  assert (D = 0) by nia. unfold D in *. lia.
Qed.

Lemma nearest_exact M K n p1 p2 :
  0 <= K -> 0 < p2 ->
  Z.abs (2 * M * p2 - 2 ^ (K + 1) * p1) <= p2 ->
  p1 = n * p2 ->
  M = n * 2 ^ K.
Proof.
  intros HK Hp2 Hnear Hdiv.
  rewrite Z.pow_add_r in * by lia. change (2 ^ 1) with 2 in *.
  subst p1. set (P := 2 ^ K) in *. clearbody P.
  set (T := M - n * P).
  assert (HT : 2 * M * p2 - P * 2 * (n * p2) = 2 * T * p2)
    by (unfold T; ring).
  rewrite HT in Hnear.
  assert (T = 0) by nia. unfold T in *. lia.
Qed.

Lemma py_truediv_zero_dividend b :
  b <> 0 -> py_truediv 0 b = inr (S754_zero (b <? 0)).
Proof.
  intros Hb. unfold py_truediv. apply Z.eqb_neq in Hb. now rewrite Hb.
Qed.

Lemma abs_divides a b n :
  b <> 0 -> Z.abs a = n * Z.abs b -> a mod b = 0.
Proof.
  intros Hb H. apply Z.mod_divide; [exact Hb |].
  apply Z.divide_abs_l, Z.divide_abs_r. exists n. exact H.
Qed.

Lemma divides_abs a b :
  b <> 0 -> a mod b = 0 -> exists n, Z.abs a = n * Z.abs b.
Proof.
  intros Hb H. apply Z.mod_divide in H; [| exact Hb].
  apply Z.divide_abs_l, Z.divide_abs_r in H. exact H.
Qed.

(** Below 2^53 true division succeeds. *)
Lemma py_truediv_succeeds a b :
  b <> 0 -> Z.abs a < 2 ^ 53 -> Z.abs b < 2 ^ 53 ->
  exists q, py_truediv a b = inr q.
Proof.
  intros Hb Ha53 Hb53. destruct (Z.eq_dec a 0) as [->|Ha].
  - eexists. now apply py_truediv_zero_dividend.
  - destruct (py_truediv_small a b Ha Hb Ha53 Hb53)
      as (m & e & K & Hq & _). eexists. exact Hq.
Qed.

(** Below 2^53 the float of a true division is a whole number only
    if the divisor divides the dividend. *)
Lemma py_truediv_whole a b q :
  b <> 0 -> Z.abs a < 2 ^ 53 -> Z.abs b < 2 ^ 53 ->
  py_truediv a b = inr q ->
  float_is_integer q = true -> a mod b = 0.
Proof.
  intros Hb Ha53 Hb53 Hq Hwhole. destruct (Z.eq_dec a 0) as [->|Ha].
  - apply Z.mod_0_l. exact Hb.
  - destruct (py_truediv_small a b Ha Hb Ha53 Hb53)
      as (m & e & K & Hq' & HK & He & Hnear & Hgrid & _).
    rewrite Hq' in Hq. inversion Hq; subst q. clear Hq.
    cbn [float_is_integer] in Hwhole.
    assert (Hn : exists n, Z.pos m * 2 ^ (e + K) = n * 2 ^ K).
    { destruct (0 <=? e) eqn:Ee.
      - apply Z.leb_le in Ee. exists (Z.pos m * 2 ^ e).
        rewrite Z.pow_add_r by lia. ring.
      - apply Z.leb_gt in Ee. apply Z.eqb_eq in Hwhole.
        apply Z.mod_divide in Hwhole;
          [| apply Z.pow_nonzero; lia].
        destruct Hwhole as (n & Hn). exists n. rewrite Hn.
        rewrite <- Z.mul_assoc, <- Z.pow_add_r by lia.
        do 2 f_equal. lia. }
    destruct Hn as (n & Hn).
    apply (abs_divides a b n Hb).
    apply (nearest_whole_divides (Z.pos m * 2 ^ (e + K)) K n
             (Z.abs a) (Z.abs b) HK); try assumption. lia.
Qed.

(** Below 2^53 the float of a true division is the quotient itself
    when the divisor divides the dividend. *)
Lemma py_truediv_exact a b q :
  b <> 0 -> Z.abs a < 2 ^ 53 -> Z.abs b < 2 ^ 53 ->
  py_truediv a b = inr q ->
  a mod b = 0 -> float_is_quotient q a b.
Proof.
  intros Hb Ha53 Hb53 Hq Hdiv. destruct (Z.eq_dec a 0) as [->|Ha].
  - rewrite py_truediv_zero_dividend in Hq by exact Hb.
    inversion Hq. reflexivity.
  - destruct (py_truediv_small a b Ha Hb Ha53 Hb53)
      as (m & e & K & Hq' & HK & He & Hnear & Hgrid & _).
    rewrite Hq' in Hq. inversion Hq; subst q. clear Hq.
    destruct (divides_abs a b Hb Hdiv) as (n & Hn).
    assert (Hbpos : 0 < Z.abs b) by lia.
    pose proof (nearest_exact (Z.pos m * 2 ^ (e + K)) K n
                  (Z.abs a) (Z.abs b) HK Hbpos Hnear Hn) as HM.
    assert (Hun : if 0 <=? e then Z.pos m * 2 ^ e * Z.abs b = Z.abs a
                  else Z.pos m * Z.abs b = Z.abs a * 2 ^ (- e)).
    { destruct (0 <=? e) eqn:Ee.
      - apply Z.leb_le in Ee. rewrite Z.pow_add_r in HM by lia.
        assert (0 < 2 ^ K) by (apply Z.pow_pos_nonneg; lia).
        rewrite Hn. nia.
      - apply Z.leb_gt in Ee.
        assert (HKe : 2 ^ K = 2 ^ (e + K) * 2 ^ (- e)).
        { rewrite <- Z.pow_add_r by lia. f_equal. lia. }
        assert (0 < 2 ^ (e + K)) by (apply Z.pow_pos_nonneg; lia).
        rewrite HKe in HM. rewrite Hn.
        assert (Z.pos m = n * 2 ^ (- e)) by nia.
        nia. }
    cbn [float_is_quotient]. cbv zeta.
    destruct (0 <=? e);
      destruct a as [|pa|pa], b as [|pb|pb]; try congruence;
      cbn [Z.ltb Z.compare xorb Z.abs] in *;
      rewrite <- ?Pos2Z.opp_pos; nia.
Qed.

(** Below 2^53 the float of a true division is within the relative
    error 2^-53 of the quotient. *)
Lemma py_truediv_error a b s m e :
  b <> 0 -> Z.abs a < 2 ^ 53 -> Z.abs b < 2 ^ 53 ->
  py_truediv a b = inr (S754_finite s m e) ->
  let sm := if s then Z.neg m else Z.pos m in
  let num := if 0 <=? e then sm * 2 ^ e else sm in
  let den := if 0 <=? e then 1 else 2 ^ (- e) in
  Z.abs (num * b - a * den) * 2 ^ 53 <= Z.abs a * den.
Proof.
  intros Hb Ha53 Hb53 Hq. destruct (Z.eq_dec a 0) as [->|Ha].
  { rewrite py_truediv_zero_dividend in Hq by exact Hb. discriminate. }
  destruct (py_truediv_small a b Ha Hb Ha53 Hb53)
    as (m' & e' & K & Hq' & HK & He & Hnear & _ & Hmag).
  rewrite Hq' in Hq. inversion Hq; subst s m' e'. clear Hq.
  assert (HP : 0 < 2 ^ K) by (apply Z.pow_pos_nonneg; lia).
  assert (H2 : 2 ^ (K + 1) = 2 * 2 ^ K).
  { rewrite Z.pow_add_r by lia. change (2 ^ 1) with 2. ring. }
  rewrite H2 in Hnear.
  assert (Hun :
            let num := if 0 <=? e then Z.pos m * 2 ^ e else Z.pos m in
            let den := if 0 <=? e then 1 else 2 ^ (- e) in
            Z.abs (num * Z.abs b - Z.abs a * den) * 2 ^ 53
            <= Z.abs a * den).
  { cbv zeta. destruct (0 <=? e) eqn:Ee.
    - apply Z.leb_le in Ee. rewrite Z.pow_add_r in Hnear by lia.
      set (P := 2 ^ K) in *. clearbody P.
      set (D := Z.pos m * 2 ^ e * Z.abs b - Z.abs a * 1).
      replace (2 * (Z.pos m * (2 ^ e * P)) * Z.abs b - 2 * P * Z.abs a)
        with (2 * P * D) in Hnear by (unfold D; ring).
      revert Hnear Hmag. generalize D.
      generalize (Z.abs a) (Z.abs b). clear - HP. intros A B D Hn Hm.
      change (2 ^ 53) with (2 * 2 ^ 52).
      set (W := 2 ^ 52) in *. assert (0 < W) by reflexivity. clearbody W.
      nia.
    - apply Z.leb_gt in Ee.
      assert (HKe : 2 ^ K = 2 ^ (e + K) * 2 ^ (- e)).
      { rewrite <- Z.pow_add_r by lia. f_equal. lia. }
      assert (Hc : 0 < 2 ^ (e + K)) by (apply Z.pow_pos_nonneg; lia).
      assert (HQ : 0 < 2 ^ (- e)) by (apply Z.pow_pos_nonneg; lia).
      rewrite HKe in Hnear, Hmag.
      set (c := 2 ^ (e + K)) in *. clearbody c.
      set (Q := 2 ^ (- e)) in *. clearbody Q.
      set (D := Z.pos m * Z.abs b - Z.abs a * Q).
      replace (2 * (Z.pos m * c) * Z.abs b - 2 * (c * Q) * Z.abs a)
        with (2 * c * D) in Hnear by (unfold D; ring).
      revert Hnear Hmag. generalize D.
      generalize (Z.abs a) (Z.abs b). clear - Hc HQ. intros A B D Hn Hm.
      change (2 ^ 53) with (2 * 2 ^ 52).
      set (W := 2 ^ 52) in *. assert (0 < W) by reflexivity. clearbody W.
      nia. }
  cbv zeta in *.
  destruct (0 <=? e);
    destruct a as [|pa|pa], b as [|pb|pb]; try congruence;
    cbn [Z.ltb Z.compare xorb Z.abs] in *;
    rewrite <- ?Pos2Z.opp_pos; lia.
Qed.

(** Below 2^53 the three facts together, as [truediv_rounds] checks
    them. *)
Lemma py_truediv_rounds a b :
  b <> 0 -> Z.abs a < 2 ^ 53 -> Z.abs b < 2 ^ 53 ->
  truediv_rounds a b = true.
Proof.
  intros Hb Ha53 Hb53. unfold truediv_rounds.
  destruct (py_truediv_succeeds a b Hb Ha53 Hb53) as (q & Hq).
  rewrite Hq. destruct (Z.eq_dec a 0) as [->|Ha].
  - rewrite py_truediv_zero_dividend in Hq by exact Hb.
    inversion Hq. reflexivity.
  - destruct (py_truediv_small a b Ha Hb Ha53 Hb53)
      as (m & e & K & Hq' & _).
    rewrite Hq' in Hq. inversion Hq; subst q. clear Hq.
    apply andb_true_intro. split.
    + apply Z.leb_le.
      exact (py_truediv_error a b _ m e Hb Ha53 Hb53 Hq').
    + destruct (a mod b =? 0) eqn:Ediv.
      * apply Z.eqb_eq in Ediv.
        pose proof (py_truediv_exact a b _ Hb Ha53 Hb53 Hq' Ediv) as Hex.
        cbn [float_is_quotient] in Hex. cbv zeta in Hex.
        apply Z.eqb_eq. destruct (0 <=? e); lia.
      * apply Z.eqb_neq in Ediv. apply negb_true_iff.
        destruct (float_is_integer
                    (S754_finite (xorb (a <? 0) (b <? 0)) m e)) eqn:Ew;
          [| reflexivity].
        exfalso. apply Ediv.
        exact (py_truediv_whole a b _ Hb Ha53 Hb53 Hq' Ew).
Qed.

(** C10, as amended.  When the division succeeds, the block-select
    constant [<block>_BLOCK] has as value the float that the true
    (non-floored) division [baseAddress / range] returns, never an
    integer object, and its bit width is the literal 4 whatever the
    block; a [range] of zero raises [ZeroDivisionError] once the three
    heading comment lines are written.  When [baseAddress] and a
    [range] other than zero are both below 2^53 in magnitude, the
    division succeeds and the value is the double nearest to the
    quotient, within the relative error 2^-53: the quotient itself
    when [range] divides [baseAddress], and not a whole number when
    it does not.  With [baseAddress] 2 and [range] 4 the value is one
    half, where floor division gives 0; with [baseAddress] and [range]
    both 0x1000 it is the float 1.0. *)
Theorem write_addrbl_head_block_select self block :
  let heading :=
    [write_comm_line None;
     write_comment ("Address block: " ++ block_name block) 2 None None;
     write_comm_line None] in
  let select q :=
    write_decl {| decl_name := block_name block ++ "_BLOCK";
                  decl_value := PyFloat q;
                  decl_type := "std_logic";
                  decl_bitWidth := 4;
                  decl_specifier := "constant";
                  decl_alignLen := 80 |} in
  (forall q,
     py_truediv (baseAddress block) (range block) = inr q ->
     appends (write_addrbl_head self block)
       (heading ++ [select q; wr_nl]) [] (inr tt))
  /\ (range block = 0 ->
      appends (write_addrbl_head self block) heading []
        (inl ZeroDivisionError))
  /\ (range block <> 0 ->
      Z.abs (baseAddress block) < 2 ^ 53 ->
      Z.abs (range block) < 2 ^ 53 ->
      exists q,
        py_truediv (baseAddress block) (range block) = inr q
        /\ appends (write_addrbl_head self block)
             (heading ++ [select q; wr_nl]) [] (inr tt)
        /\ truediv_rounds (baseAddress block) (range block) = true
        /\ (baseAddress block mod range block = 0 ->
            float_is_quotient q (baseAddress block) (range block))
        /\ (baseAddress block mod range block <> 0 ->
            float_is_integer q = false))
  /\ (exists half,
        py_truediv 2 4 = inr half
        /\ float_is_quotient half 2 4
        /\ float_is_integer half = false
        /\ py_floordiv 2 4 = inr 0)
  /\ (exists one,
        py_truediv 0x1000 0x1000 = inr one
        /\ float_is_quotient one 0x1000 0x1000).
Proof.
  intros heading select. split; [| split; [| split; [| split]]].
  - intros q Hq. now apply write_addrbl_head_calls.
  - intros Hr. apply write_addrbl_head_raises. rewrite Hr.
    apply py_truediv_zero.
  - intros Hr Hb53 Hr53.
    destruct (py_truediv_succeeds _ _ Hr Hb53 Hr53) as (q & Hq).
    exists q. split; [exact Hq |].
    split; [now apply write_addrbl_head_calls |].
    split; [now apply py_truediv_rounds |]. split.
    + intros Hdiv. exact (py_truediv_exact _ _ q Hr Hb53 Hr53 Hq Hdiv).
    + intros Hndiv.
      destruct (float_is_integer q) eqn:Ew; [| reflexivity].
      exfalso. apply Hndiv.
      exact (py_truediv_whole _ _ q Hr Hb53 Hr53 Hq Ew).
  - eexists. split; [vm_compute; reflexivity |]. now vm_compute.
  - eexists. split; [vm_compute; reflexivity |]. now vm_compute.
Qed.

(** A block at 0x100 of [range] 0x300: the division succeeds, the
    value is the double nearest to one third and is not a whole
    number. *)
Lemma write_addrbl_head_block_select_witness :
  let self := {| addrMap := None; fieldMap := None; busWidth := 32 |} in
  let block := {| block_name := "Control_registers"; baseAddress := 0x100;
                  range := 0x300; register := [] |} in
  let third := S754_finite false 6004799503160661 (-54) in
  range block <> 0
  /\ Z.abs (baseAddress block) < 2 ^ 53
  /\ Z.abs (range block) < 2 ^ 53
  /\ baseAddress block mod range block <> 0
  /\ appends (write_addrbl_head self block)
       [write_comm_line None;
        write_comment "Address block: Control_registers" 2 None None;
        write_comm_line None;
        write_decl {| decl_name := "Control_registers_BLOCK";
                      decl_value := PyFloat third;
                      decl_type := "std_logic";
                      decl_bitWidth := 4;
                      decl_specifier := "constant";
                      decl_alignLen := 80 |};
        wr_nl]
       [] (inr tt)
  /\ float_is_integer third = false.
Proof.
  intros self block third.
  assert (Hr : range block <> 0) by discriminate.
  assert (Hb53 : Z.abs (baseAddress block) < 2 ^ 53) by reflexivity.
  assert (Hr53 : Z.abs (range block) < 2 ^ 53) by reflexivity.
  assert (Hnd : baseAddress block mod range block <> 0) by discriminate.
  split; [exact Hr |]. split; [exact Hb53 |]. split; [exact Hr53 |].
  split; [exact Hnd |].
  destruct (write_addrbl_head_block_select self block)
    as (_ & _ & Hsmall & _).
  destruct (Hsmall Hr Hb53 Hr53) as (q & Hq & Hcalls & _ & _ & Hwhole).
  assert (Eq : q = third).
  { assert (Hc : py_truediv (baseAddress block) (range block) = inr third)
      by (vm_compute; reflexivity).
    rewrite Hc in Hq. now inversion Hq. }
  subst q. split; [exact Hcalls | exact (Hwhole Hnd)].
Defined.

(** C10, as stated, fails: the value is a double, so the quotient is
    rounded.  With [baseAddress] 0x100 and [range] 0x300 the value
    emitted is 6004799503160661 / 2^54, not one third; with
    [baseAddress] 2^54 + 1 and [range] 2, which does not divide it,
    the value emitted is the whole number 2^53; and with [baseAddress]
    1 and [range] 2^1075 the quotient is too small for a double and
    the value emitted is zero. *)
Lemma write_addrbl_head_rounds :
  let self := {| addrMap := None; fieldMap := None; busWidth := 32 |} in
  let block base rng := {| block_name := "BL"; baseAddress := base;
                           range := rng; register := [] |} in
  let value base rng :=
    map decl_value
      (emitted_decls
         (out (fst (write_addrbl_head self (block base rng) init_state)))) in
  value 0x100 0x300 = [PyFloat (S754_finite false 6004799503160661 (-54))]
  /\ ~ float_is_quotient (S754_finite false 6004799503160661 (-54))
         0x100 0x300
  /\ value (2 ^ 54 + 1) 2 = [PyFloat (S754_finite false 4503599627370496 1)]
  /\ float_is_integer (S754_finite false 4503599627370496 1) = true
  /\ (2 ^ 54 + 1) mod 2 <> 0
  /\ ~ float_is_quotient (S754_finite false 4503599627370496 1)
         (2 ^ 54 + 1) 2
  /\ value 1 (2 ^ 1075) = [PyFloat (S754_zero false)]
  /\ float_is_integer (S754_zero false) = true
  /\ 1 mod 2 ^ 1075 <> 0.
Proof.
  intros self block value.
  split; [vm_compute; reflexivity |].
  split; [vm_compute; discriminate |].
  split; [vm_compute; reflexivity |].
  split; [reflexivity |].
  split; [vm_compute; discriminate |].
  split; [vm_compute; discriminate |].
  split; [vm_compute; reflexivity |].
  split; [reflexivity |].
  vm_compute; discriminate.
Qed.

(** ** The two traversals *)

Lemma bind_bind {A B C} (m : Gen A) (k : A -> Gen B) (h : B -> Gen C) st :
  bind (bind m k) h st = bind m (fun a => bind (k a) h) st.
Proof.
  unfold bind. destruct (m st) as [st' [e|a]]; reflexivity.
Qed.

Lemma appends_bind_bind {A B C} (m : Gen A) (k : A -> Gen B)
    (h : B -> Gen C) c l r :
  appends (bind m (fun a => bind (k a) h)) c l r ->
  appends (bind (bind m k) h) c l r.
Proof.
  intros H st. rewrite bind_bind. apply H.
Qed.

(** What the body of the loop of [write_mem_map_addr] appends for one
    block whose quotient is [q]. *)
Lemma write_mem_map_addr_block self block q :
  py_truediv (baseAddress block) (range block) = inr q ->
  appends (write_addrbl_head self block ;;
           write_addrbl_regs self block ;;
           vhdlGen wr_nl)
    ([write_comm_line None;
      write_comment ("Address block: " ++ block_name block) 2 None None;
      write_comm_line None;
      write_decl {| decl_name := block_name block ++ "_BLOCK";
                    decl_value := PyFloat q;
                    decl_type := "std_logic";
                    decl_bitWidth := 4;
                    decl_specifier := "constant";
                    decl_alignLen := 80 |};
      wr_nl]
     ++ map (fun reg =>
               write_decl
                 {| decl_name := reg_name reg ++ "_ADR";
                    decl_value :=
                      PyInt (addressOffset reg + baseAddress block);
                    decl_type := "std_logic";
                    decl_bitWidth := 12;
                    decl_specifier := "constant";
                    decl_alignLen := 80 |})
          (sorted addressOffset (register block))
     ++ [wr_nl])
    [] (inr tt).
Proof.
  intros Hq.
  eapply appends_step; [now apply write_addrbl_head_calls |].
  eapply appends_step; [apply write_addrbl_regs_calls |].
  apply appends_vhdlGen.
Qed.

(** C2, as amended.  [write_mem_map_addr] emits the address blocks in
    the order in which they stand in the map, each with its heading,
    its block-select constant and its register addresses, provided
    every block's division succeeds. *)
Theorem write_mem_map_addr_document_order self am qs :
  addrMap self = Some am ->
  Forall2 (fun block q =>
             py_truediv (baseAddress block) (range block) = inr q)
    (addressBlock am) qs ->
  let block_calls (bq : AddressBlock * spec_float) :=
    let (block, q) := bq in
    ([write_comm_line None;
     write_comment ("Address block: " ++ block_name block) 2 None None;
     write_comm_line None;
     write_decl {| decl_name := block_name block ++ "_BLOCK";
                   decl_value := PyFloat q;
                   decl_type := "std_logic";
                   decl_bitWidth := 4;
                   decl_specifier := "constant";
                   decl_alignLen := 80 |};
     wr_nl]
    ++ map (fun reg =>
              write_decl
                {| decl_name := reg_name reg ++ "_ADR";
                   decl_value :=
                     PyInt (addressOffset reg + baseAddress block);
                   decl_type := "std_logic";
                   decl_bitWidth := 12;
                   decl_specifier := "constant";
                   decl_alignLen := 80 |})
         (sorted addressOffset (register block))
    ++ [wr_nl])%list in
  appends (write_mem_map_addr self)
    (flat_map block_calls (combine (addressBlock am) qs)) [] (inr tt)
  /\ map fst (combine (addressBlock am) qs) = addressBlock am.
Proof.
  intros Ham Hqs block_calls. unfold write_mem_map_addr. rewrite Ham.
  simpl blocks_of. split.
  - apply appends_ret_then.
    induction Hqs as [|block q blocks qs' Hq _ IH];
      cbn [for_each combine flat_map].
    + apply appends_ret.
    + eapply appends_step; [| exact IH].
      unfold block_calls. now apply write_mem_map_addr_block.
  - clear Ham. induction Hqs as [|block q blocks qs' _ _ IH]; simpl.
    + reflexivity.
    + now rewrite IH.
Qed.

Lemma write_mem_map_addr_document_order_witness :
  let hi := {| block_name := "HI"; baseAddress := 0x2000; range := 0x1000;
               register := [] |} in
  let lo := {| block_name := "LO"; baseAddress := 0; range := 0x1000;
               register := [] |} in
  let am := {| map_name := "Regs"; addressBlock := [hi; lo] |} in
  let self := {| addrMap := Some am; fieldMap := None; busWidth := 32 |} in
  let qs := [S754_finite false 4503599627370496 (-51); S754_zero false] in
  addrMap self = Some am
  /\ Forall2 (fun block q =>
                py_truediv (baseAddress block) (range block) = inr q)
       (addressBlock am) qs
  /\ emitted_names (out (fst (write_mem_map_addr self init_state)))
     = ["HI_BLOCK"; "LO_BLOCK"].
Proof.
  intros hi lo am self qs.
  assert (Ham : addrMap self = Some am) by reflexivity.
  assert (Hqs : Forall2 (fun block q =>
                           py_truediv (baseAddress block) (range block)
                           = inr q) (addressBlock am) qs).
  { repeat constructor. }
  split; [exact Ham |]. split; [exact Hqs |].
  destruct (write_mem_map_addr_document_order self am qs Ham Hqs)
    as (Hcalls & _).
  rewrite (appends_init _ _ _ _ Hcalls). reflexivity.
Defined.

(** C2, as stated, fails: a map whose first block has the larger
    [baseAddress] has that block emitted first, where the ascending
    order of the specification would emit it last. *)
Lemma write_mem_map_addr_not_ascending :
  let hi := {| block_name := "HI"; baseAddress := 0x2000; range := 0x1000;
               register := [ {| reg_name := "STATUS"; description := "";
                                addressOffset := 0; field := [] |} ] |} in
  let lo := {| block_name := "LO"; baseAddress := 0; range := 0x1000;
               register := [ {| reg_name := "MODE"; description := "";
                                addressOffset := 0; field := [] |} ] |} in
  let am := {| map_name := "Regs"; addressBlock := [hi; lo] |} in
  let self := {| addrMap := Some am; fieldMap := None; busWidth := 32 |} in
  emitted_names (out (fst (write_mem_map_addr self init_state)))
  = ["HI_BLOCK"; "STATUS_ADR"; "LO_BLOCK"; "MODE_ADR"]
  /\ emitted_names (out (fst (write_mem_map_addr_ascending self init_state)))
     = ["LO_BLOCK"; "MODE_ADR"; "HI_BLOCK"; "STATUS_ADR"]
  /\ write_mem_map_addr self init_state
     <> write_mem_map_addr_ascending self init_state
  /\ ~ StronglySorted Z.le (map baseAddress (addressBlock am)).
Proof.
  intros hi lo am self.
  split; [reflexivity |]. split; [reflexivity |]. split.
  - intros Heq. vm_compute in Heq. discriminate.
  - intros Hs. simpl in Hs. inversion Hs as [|? ? _ Hf]; subst.
    inversion Hf; subst. lia.
Qed.

(** ** Order of the two modes in the package *)

(** C4, as amended.  With both maps supplied and neither traversal
    raising, [create_addrMap_package] emits in the body the address
    constants first and the field constants after them; it is
    [write_mem_map_both] that emits the field constants first. *)
Theorem create_addrMap_package_addresses_first self name am fm A F :
  addrMap self = Some am ->
  fieldMap self = Some fm ->
  write_mem_map_addr self init_state
  = ({| out := A; stdout := [] |}, inr tt) ->
  write_mem_map_fields self init_state
  = ({| out := F; stdout := [] |}, inr tt) ->
  let heading :=
    [wr_nl;
     write_comm_line (Some 0);
     write_comment ("Addresses map for: " ++ map_name am)
       0 (Some true) None;
     write_comment ("Field map for: " ++ map_name fm) 0 (Some true) None;
     write_comment "This file is autogenerated, DO NOT EDIT!"
       0 (Some true) None;
     write_comm_line (Some 0);
     wr_nl;
     create_includes ["std_logic_1164.all"];
     wr_nl;
     create_package name true;
     wr_nl] in
  appends (create_addrMap_package self name)
    (heading ++ A ++ F ++ [create_package name false])
    ["Writing addresses of '" ++ map_name am ++ "' register map";
     "Writing bit fields of '" ++ map_name fm ++ "' register map"]
    (inr tt)
  /\ appends (write_mem_map_both self) (F ++ A) [] (inr tt).
Proof.
  intros Ham Hfm HA HF heading.
  apply (framed_from_init _ _ _ _ (framed_write_mem_map_addr self)) in HA.
  apply (framed_from_init _ _ _ _ (framed_write_mem_map_fields self)) in HF.
  split.
  - unfold create_addrMap_package, heading. rewrite Ham, Hfm.
    do 2 apply appends_vhdlGen_then.
    apply appends_bind_bind, appends_print_then, appends_vhdlGen_then.
    apply appends_bind_bind, appends_print_then, appends_vhdlGen_then.
    do 7 apply appends_vhdlGen_then.
    eapply appends_step; [exact HA |].
    eapply appends_step; [exact HF |].
    apply appends_vhdlGen.
  - unfold write_mem_map_both.
    eapply appends_step; [exact HF | exact HA].
Qed.

Lemma create_addrMap_package_addresses_first_witness :
  let ena := {| field_name := "ENA"; bitOffset := 0; bitWidth := 1;
                resets := None; enumeratedValues := [] |} in
  let mode := {| reg_name := "MODE"; description := "Mode";
                 addressOffset := 4; field := [ena] |} in
  let block := {| block_name := "BL"; baseAddress := 0x1000;
                  range := 0x1000; register := [mode] |} in
  let am := {| map_name := "Regs"; addressBlock := [block] |} in
  let self := {| addrMap := Some am; fieldMap := Some am;
                 busWidth := 32 |} in
  addrMap self = Some am
  /\ fieldMap self = Some am
  /\ emitted_names
       (out (fst (create_addrMap_package self "CAN_FD_register_map"
                    init_state)))
     = ["BL_BLOCK"; "MODE_ADR"; "ENA_IND"]
  /\ emitted_names (out (fst (write_mem_map_both self init_state)))
     = ["ENA_IND"; "BL_BLOCK"; "MODE_ADR"].
Proof.
  intros ena mode block am self.
  assert (Ham : addrMap self = Some am) by reflexivity.
  assert (Hfm : fieldMap self = Some am) by reflexivity.
  destruct (create_addrMap_package_addresses_first self
              "CAN_FD_register_map" am am
              (out (fst (write_mem_map_addr self init_state)))
              (out (fst (write_mem_map_fields self init_state)))
              Ham Hfm eq_refl eq_refl) as (Hpkg & Hboth).
  split; [exact Ham |]. split; [exact Hfm |].
  rewrite (appends_init _ _ _ _ Hpkg), (appends_init _ _ _ _ Hboth).
  split; reflexivity.
Defined.

(** C4, as stated, fails: with both maps supplied the first constants
    of the package are those of the addresses mode, and the field
    constant comes last. *)
Lemma create_addrMap_package_fields_not_first :
  let ena := {| field_name := "ENA"; bitOffset := 0; bitWidth := 1;
                resets := None; enumeratedValues := [] |} in
  let mode := {| reg_name := "MODE"; description := "Mode";
                 addressOffset := 4; field := [ena] |} in
  let block := {| block_name := "BL"; baseAddress := 0x1000;
                  range := 0x1000; register := [mode] |} in
  let am := {| map_name := "Regs"; addressBlock := [block] |} in
  let self := {| addrMap := Some am; fieldMap := Some am;
                 busWidth := 32 |} in
  let package :=
    out (fst (create_addrMap_package self "CAN_FD_register_map"
                init_state)) in
  let fields := out (fst (write_mem_map_fields self init_state)) in
  let addresses := out (fst (write_mem_map_addr self init_state)) in
  emitted_names fields = ["ENA_IND"]
  /\ emitted_names addresses = ["BL_BLOCK"; "MODE_ADR"]
  /\ emitted_names package = ["BL_BLOCK"; "MODE_ADR"; "ENA_IND"]
  /\ ~ exists before after,
         package = (before ++ fields ++ addresses ++ after)%list.
Proof.
  intros ena mode block am self package fields addresses.
  split; [reflexivity |]. split; [reflexivity |]. split; [reflexivity |].
  intros (before & after & Heq).
  apply (f_equal emitted_names) in Heq.
  unfold emitted_names, emitted_decls in Heq.
  rewrite !flat_map_app, !map_app in Heq.
  fold (emitted_decls before) (emitted_decls after)
       (emitted_decls fields) (emitted_decls addresses)
       (emitted_decls package) in Heq.
  fold (emitted_names before) (emitted_names after)
       (emitted_names fields) (emitted_names addresses)
       (emitted_names package) in Heq.
  change (emitted_names package)
    with ["BL_BLOCK"; "MODE_ADR"; "ENA_IND"] in Heq.
  change (emitted_names fields) with ["ENA_IND"] in Heq.
  change (emitted_names addresses) with ["BL_BLOCK"; "MODE_ADR"] in Heq.
  destruct (emitted_names before) as [|n1 [|n2 [|n3 [|n4 ns]]]];
    simpl in Heq; discriminate.
Qed.

(** ** Further properties of the generator *)

(** *** Runs that return, runs that raise *)

Lemma runs_ret {A} (a : A) : runs (ret a).
Proof. exists [], a. apply appends_ret. Qed.

Lemma runs_vhdlGen c : runs (vhdlGen c).
Proof. exists [c], tt. apply appends_vhdlGen. Qed.

Lemma runs_bind {A B} (m : Gen A) (k : A -> Gen B) :
  runs m -> (forall a, runs (k a)) -> runs (bind m k).
Proof.
  intros (c1 & a & Hm) Hk. destruct (Hk a) as (c2 & b & Hka).
  exists (c1 ++ c2)%list, b. eapply appends_step; eauto.
Qed.

Lemma runs_for_each {A B} (l : list A) (body : A -> Gen B) :
  (forall x, In x l -> runs (body x)) -> runs (for_each l body).
Proof.
  induction l as [|x l IH]; intros H; simpl.
  - apply runs_ret.
  - apply runs_bind; [apply H; now left |].
    intros _. apply IH. intros y Hy. apply H. now right.
Qed.

Lemma raises_bind {A B} e (m : Gen A) (k : A -> Gen B) :
  raises e m -> raises e (bind m k).
Proof.
  intros (c & Hm). exists c. now apply appends_bind_raise.
Qed.

Lemma runs_then_raises {A B} e (m : Gen A) (k : A -> Gen B) :
  runs m -> (forall a, raises e (k a)) -> raises e (bind m k).
Proof.
  intros (c1 & a & Hm) Hk. destruct (Hk a) as (c2 & Hka).
  exists (c1 ++ c2)%list. eapply appends_step; eauto.
Qed.

(** A loop whose body returns or raises [e], and raises [e] for one
    element at least, raises [e]. *)
Lemma raises_for_each {A B} e (l : list A) (body : A -> Gen B) :
  (forall x, In x l -> runs (body x) \/ raises e (body x)) ->
  (exists x, In x l /\ raises e (body x)) ->
  raises e (for_each l body).
Proof.
  induction l as [|x l IH]; intros Hall (y & Hy & Hraise).
  - destruct Hy.
  - simpl. destruct (Hall x (or_introl eq_refl)) as [Hx|Hx].
    + apply runs_then_raises; [exact Hx |]. intros _. apply IH.
      * intros z Hz. apply Hall. now right.
      * destruct Hy as [->|Hy].
        -- destruct Hx as (c1 & a & H1). destruct Hraise as (c2 & H2).
           destruct (appends_inj _ _ _ _ _ _ _ H1 H2) as (_ & _ & Hne).
           discriminate.
        -- exists y. auto.
    + now apply raises_bind.
Qed.

Lemma runs_not_raises {A} e (m : Gen A) : runs m -> ~ raises e m.
Proof.
  intros (c1 & a & H1) (c2 & H2).
  destruct (appends_inj _ _ _ _ _ _ _ H1 H2) as (_ & _ & Hne).
  discriminate.
Qed.

Lemma runs_write_reg_enums self f : runs (write_reg_enums self f).
Proof.
  unfold write_reg_enums. destruct (enumeratedValues f) as [|es ess].
  - apply runs_ret.
  - apply runs_bind; [apply runs_vhdlGen | intros _].
    apply runs_bind; [apply runs_vhdlGen | intros _].
    apply runs_bind; [| intros _; apply runs_ret].
    apply runs_for_each. intros es' _. apply runs_for_each.
    intros e _. apply runs_vhdlGen.
Qed.

Lemma runs_write_res_vals self f : runs (write_res_vals self f).
Proof.
  unfold write_res_vals. destruct (resets f) as [[[r|]]|]; simpl;
    try apply runs_ret.
  apply runs_bind; [apply runs_vhdlGen | intros _; apply runs_ret].
Qed.

Lemma runs_write_reg_field self f r :
  busWidth self <> 0 -> runs (write_reg_field self f r).
Proof.
  intros Hbw. eexists. exists tt. now apply write_reg_field_calls.
Qed.

Lemma raises_write_reg_field self f r :
  busWidth self = 0 -> raises ZeroDivisionError (write_reg_field self f r).
Proof.
  intros Hbw. exists []. now apply write_reg_field_zero_bus.
Qed.

(** *** Bit positions: widths other than one, and the bus word *)

(** A field whose [bitWidth] is not 1 always gets the two constants
    [_L] and [_H], [bitWidth - 1] apart; a [bitWidth] of zero or less
    is not refused, and puts [_H] below [_L]. *)
Theorem write_reg_field_width_not_one self f r :
  busWidth self <> 0 ->
  bitWidth f <> 1 ->
  let low := bitOffset f + (addressOffset r * 8) mod busWidth self in
  let high := low + bitWidth f - 1 in
  let const suffix v :=
    write_decl {| decl_name := field_name f ++ suffix;
                  decl_value := PyInt v;
                  decl_type := "natural";
                  decl_bitWidth := bitWidth f;
                  decl_specifier := "constant";
                  decl_alignLen := 50 |} in
  appends (write_reg_field self f r)
    [const "_L" low; const "_H" high] [] (inr tt)
  /\ (bitWidth f <= 0 -> high < low).
Proof.
  intros Hbw Hw low high const.
  pose proof (write_reg_field_calls self f r Hbw) as H. cbv zeta in H.
  fold low in H.
  replace (bitOffset f + bitWidth f - 1
           + (addressOffset r * 8) mod busWidth self) with high in H
    by (unfold high, low; lia).
  replace (high =? low) with false in H
    by (symmetry; apply Z.eqb_neq; unfold high; lia).
  split; [exact H | unfold high; lia].
Qed.

Lemma write_reg_field_width_not_one_witness :
  let self := {| addrMap := None; fieldMap := None; busWidth := 32 |} in
  let f := {| field_name := "RES"; bitOffset := 8; bitWidth := 0;
              resets := None; enumeratedValues := [] |} in
  let r := {| reg_name := "MODE"; description := ""; addressOffset := 2;
              field := [f] |} in
  let const suffix v :=
    write_decl {| decl_name := "RES" ++ suffix;
                  decl_value := PyInt v;
                  decl_type := "natural";
                  decl_bitWidth := 0;
                  decl_specifier := "constant";
                  decl_alignLen := 50 |} in
  busWidth self <> 0
  /\ bitWidth f <> 1
  /\ appends (write_reg_field self f r)
       [const "_L" 24; const "_H" 23] [] (inr tt).
Proof.
  intros self f r const.
  assert (Hbw : busWidth self <> 0) by (simpl; lia).
  assert (Hw : bitWidth f <> 1) by (simpl; lia).
  split; [exact Hbw |]. split; [exact Hw |].
  exact (proj1 (write_reg_field_width_not_one self f r Hbw Hw)).
Defined.

(** On a bus of [w] bytes, moving a register by any number of whole
    bus words leaves what [write_reg_field] does for its fields
    unchanged: the bit positions depend on the place of the register
    within the bus word only. *)
Theorem write_reg_field_bus_word_shift self f r r' w k :
  busWidth self = 8 * w ->
  addressOffset r' = addressOffset r + k * w ->
  write_reg_field self f r' = write_reg_field self f r.
Proof.
  intros Hbw Hoff. unfold write_reg_field.
  assert (Hmod : py_mod (addressOffset r' * 8) (busWidth self)
                 = py_mod (addressOffset r * 8) (busWidth self)).
  { unfold py_mod. destruct (busWidth self =? 0); [reflexivity |].
    f_equal. rewrite Hoff, Hbw.
    replace ((addressOffset r + k * w) * 8)
      with (addressOffset r * 8 + k * (8 * w)) by lia.
    apply Z_mod_plus_full. }
  now rewrite Hmod.
Qed.

Lemma write_reg_field_bus_word_shift_witness :
  let self := {| addrMap := None; fieldMap := None; busWidth := 32 |} in
  let f := {| field_name := "ENA"; bitOffset := 3; bitWidth := 5;
              resets := None; enumeratedValues := [] |} in
  let r := {| reg_name := "MODE"; description := ""; addressOffset := 2;
              field := [f] |} in
  let r' := {| reg_name := "MODE"; description := ""; addressOffset := 14;
               field := [f] |} in
  busWidth self = 8 * 4
  /\ addressOffset r' = addressOffset r + 3 * 4
  /\ write_reg_field self f r' = write_reg_field self f r.
Proof.
  intros self f r r'.
  assert (Hbw : busWidth self = 8 * 4) by reflexivity.
  assert (Hoff : addressOffset r' = addressOffset r + 3 * 4) by reflexivity.
  split; [exact Hbw |]. split; [exact Hoff |].
  exact (write_reg_field_bus_word_shift self f r r' 4 3 Hbw Hoff).
Defined.

(** With a positive bus width, every bit position emitted for a field
    is the field's own position within its register ([bitOffset] for
    the low end, [bitOffset + bitWidth - 1] for the high end) moved up
    by one and the same amount, which is at least 0 and below the bus
    width, and is 0 for a register that starts a bus word. *)
Theorem write_reg_field_shift_range self f r :
  0 < busWidth self ->
  exists shift calls,
    appends (write_reg_field self f r) calls [] (inr tt)
    /\ 0 <= shift < busWidth self
    /\ ((addressOffset r * 8) mod busWidth self = 0 -> shift = 0)
    /\ (map decl_value (emitted_decls calls)
        = [PyInt (bitOffset f + shift)]
        \/ map decl_value (emitted_decls calls)
           = [PyInt (bitOffset f + shift);
              PyInt (bitOffset f + bitWidth f - 1 + shift)]).
Proof.
  intros Hbw.
  assert (Hne : busWidth self <> 0) by lia.
  pose proof (write_reg_field_calls self f r Hne) as H. cbv zeta in H.
  exists ((addressOffset r * 8) mod busWidth self). eexists.
  split; [exact H |]. split; [now apply Z.mod_pos_bound |].
  split; [auto |].
  destruct (_ =? _); [left | right]; reflexivity.
Qed.

Lemma write_reg_field_shift_range_witness :
  let self := {| addrMap := None; fieldMap := None; busWidth := 32 |} in
  let f := {| field_name := "ENA"; bitOffset := 3; bitWidth := 5;
              resets := None; enumeratedValues := [] |} in
  let r := {| reg_name := "MODE"; description := ""; addressOffset := 2;
              field := [f] |} in
  0 < busWidth self
  /\ exists shift calls,
       appends (write_reg_field self f r) calls [] (inr tt)
       /\ 0 <= shift < 32
       /\ ((addressOffset r * 8) mod 32 = 0 -> shift = 0)
       /\ (map decl_value (emitted_decls calls)
           = [PyInt (3 + shift)]
           \/ map decl_value (emitted_decls calls)
              = [PyInt (3 + shift); PyInt (3 + 5 - 1 + shift)]).
Proof.
  intros self f r.
  assert (Hbw : 0 < busWidth self) by (simpl; lia).
  split; [exact Hbw |].
  exact (write_reg_field_shift_range self f r Hbw).
Defined.

(** *** Enumerated values: empty sets and the number of constants *)

Lemma emitted_decls_app c1 c2 :
  emitted_decls (c1 ++ c2) = (emitted_decls c1 ++ emitted_decls c2)%list.
Proof. unfold emitted_decls. apply flat_map_app. Qed.

Lemma emitted_decls_map_decl {A} (d : A -> LanDeclaration) l :
  emitted_decls (map (fun x => write_decl (d x)) l) = map d l.
Proof.
  induction l as [|x l IH]; [reflexivity |].
  simpl. unfold emitted_decls in *. simpl. now rewrite IH.
Qed.

Lemma flat_map_empty_sets (g : EnumeratedValue -> RenderCall) l :
  Forall (fun es => enumeratedValue es = []) l ->
  flat_map (fun es => map g (sorted enum_value (enumeratedValue es))) l = [].
Proof.
  induction 1 as [|es ess He _ IH]; [reflexivity |].
  simpl. rewrite He, IH. reflexivity.
Qed.

(** A field whose collection of enumerated-value sets is not empty
    but holds empty sets only still gets the blank line and the
    comment that head its enumerated values, and no constant. *)
Theorem write_reg_enums_empty_sets self f :
  enumeratedValues f <> [] ->
  Forall (fun es => enumeratedValue es = []) (enumeratedValues f) ->
  appends (write_reg_enums self f)
    [wr_nl;
     write_comment (dquote ++ field_name f ++ dquote
                      ++ " field enumerated values") 2 (Some true) None]
    [] (inr RetNone).
Proof.
  intros Hne Hempty.
  pose proof (write_reg_enums_calls self f Hne) as H.
  rewrite (flat_map_empty_sets _ _ Hempty) in H. exact H.
Qed.

Lemma write_reg_enums_empty_sets_witness :
  let self := {| addrMap := None; fieldMap := None; busWidth := 32 |} in
  let f := {| field_name := "ENA"; bitOffset := 0; bitWidth := 1;
              resets := None;
              enumeratedValues := [ {| enumeratedValue := [] |} ] |} in
  enumeratedValues f <> []
  /\ Forall (fun es => enumeratedValue es = []) (enumeratedValues f)
  /\ appends (write_reg_enums self f)
       [wr_nl;
        write_comment (dquote ++ "ENA" ++ dquote
                         ++ " field enumerated values") 2 (Some true) None]
       [] (inr RetNone).
Proof.
  intros self f.
  assert (Hne : enumeratedValues f <> []) by discriminate.
  assert (He : Forall (fun es => enumeratedValue es = [])
                 (enumeratedValues f)) by (repeat constructor).
  split; [exact Hne |]. split; [exact He |].
  exact (write_reg_enums_empty_sets self f Hne He).
Defined.

(** [write_reg_enums] emits as many constants as the sets of the field
    hold enumerated values together: none is dropped, and values that
    occur twice are emitted twice. *)
Theorem write_reg_enums_count self f :
  exists calls r,
    appends (write_reg_enums self f) calls [] (inr r)
    /\ List.length (emitted_decls calls)
       = list_sum (map (fun es => List.length (enumeratedValue es))
                     (enumeratedValues f)).
Proof.
  destruct (enumeratedValues f) as [|es0 ess] eqn:E.
  - exists [], RetFalse. split; [| reflexivity].
    unfold write_reg_enums. rewrite E. apply appends_ret.
  - assert (Hne : enumeratedValues f <> []) by (rewrite E; discriminate).
    pose proof (write_reg_enums_calls self f Hne) as H.
    eexists. exists RetNone. split; [exact H |].
    rewrite emitted_decls_app. simpl emitted_decls at 1.
    rewrite E. generalize (es0 :: ess). intros l. simpl.
    induction l as [|es l IH]; [reflexivity |].
    cbn [flat_map map].
    rewrite emitted_decls_app, length_app, IH, emitted_decls_map_decl,
      length_map, sorted_length.
    reflexivity.
Qed.

(** *** One register: the three sections *)

Lemma for_each_runs_with {A B} (P : RenderCall -> Prop) (l : list A)
    (body : A -> Gen B) :
  (forall x, In x l ->
     exists calls a, appends (body x) calls [] (inr a) /\ Forall P calls) ->
  exists calls,
    appends (for_each l body) calls [] (inr tt) /\ Forall P calls.
Proof.
  induction l as [|x l IH]; intros H; simpl.
  - exists []. split; [apply appends_ret | constructor].
  - destruct (H x (or_introl eq_refl)) as (c1 & a & H1 & P1).
    destruct IH as (c2 & H2 & P2).
    { intros y Hy. apply H. now right. }
    exists (c1 ++ c2)%list. split.
    + eapply appends_step; eauto.
    + apply Forall_app. auto.
Qed.

Lemma sorted_In {A} (key : A -> Z) x l : In x (sorted key l) <-> In x l.
Proof.
  split; apply Permutation_in;
    [apply sorted_perm | apply Permutation_sym, sorted_perm].
Qed.

(** With a bus width other than zero, [__write_reg] writes the title
    comment, then, for each switch that is on, one section: the bit
    positions of all fields (constants typed [natural] only), then the
    enumerated values of all fields and a blank line, then a comment
    and the reset values of all fields (constants typed [std_logic]
    only); then a blank line.  Each section is what its own loop over
    the fields appends, so the three kinds of constants never
    interleave. *)
Theorem write_reg_sections self reg writeFields writeEnums writeReset :
  busWidth self <> 0 ->
  exists positions enums resetvals,
    appends (for_each (sorted bitOffset (field reg))
               (fun f => write_reg_field self f reg))
      positions [] (inr tt)
    /\ appends (for_each (field reg) (fun f => write_reg_enums self f))
         enums [] (inr tt)
    /\ appends (for_each (field reg) (fun f => write_res_vals self f))
         resetvals [] (inr tt)
    /\ Forall (fun c => exists d, c = write_decl d
                                  /\ decl_type d = "natural") positions
    /\ Forall (fun c => exists d, c = write_decl d
                                  /\ decl_type d = "std_logic") resetvals
    /\ appends (__write_reg self reg writeFields writeEnums writeReset)
         ([write_comment (description reg) 2 None
             (Some (upper (reg_name reg) ++ " register"))]
          ++ (if writeFields then positions else [])
          ++ (if writeEnums then enums ++ [wr_nl] else [])
          ++ (if writeReset
              then write_comment
                     (upper (reg_name reg) ++ " register reset values")
                     2 (Some true) None :: resetvals
              else [])
          ++ [wr_nl])
         [] (inr tt).
Proof.
  intros Hbw.
  destruct (for_each_runs_with
              (fun c => exists d, c = write_decl d
                                  /\ decl_type d = "natural")
              (sorted bitOffset (field reg))
              (fun f => write_reg_field self f reg))
    as (positions & Hpos & Ppos).
  { intros f _. eexists. exists tt.
    split; [now apply write_reg_field_calls |].
    cbv zeta. destruct (_ =? _); repeat constructor; eexists; split;
      reflexivity. }
  destruct (for_each_runs_with (fun _ => True) (field reg)
              (fun f => write_reg_enums self f)) as (enums & Henum & _).
  { intros f _. destruct (runs_write_reg_enums self f) as (c & a & H).
    exists c, a. split; [exact H |]. apply Forall_forall. auto. }
  destruct (for_each_runs_with
              (fun c => exists d, c = write_decl d
                                  /\ decl_type d = "std_logic")
              (field reg) (fun f => write_res_vals self f))
    as (resetvals & Hres & Pres).
  { intros f _. pose proof (write_res_vals_cases self f) as H.
    cbv zeta in H. destruct (resets f) as [[[r|]]|]; simpl in H.
    - eexists. exists RetNone. split; [exact H |].
      repeat constructor. eexists. split; reflexivity.
    - exists [], RetFalse. split; [exact H | constructor].
    - exists [], RetFalse. split; [exact H | constructor]. }
  exists positions, enums, resetvals.
  split; [exact Hpos |]. split; [exact Henum |]. split; [exact Hres |].
  split; [exact Ppos |]. split; [exact Pres |].
  unfold __write_reg.
  eapply appends_step; [apply appends_vhdlGen |].
  eapply appends_step with (a := tt).
  { destruct writeFields; [exact Hpos | apply appends_ret]. }
  eapply appends_step with (a := tt).
  { destruct writeEnums; [| apply appends_ret].
    eapply appends_step; [exact Henum | apply appends_vhdlGen]. }
  eapply appends_step with (a := tt).
  { destruct writeReset; [| apply appends_ret].
    apply appends_vhdlGen_then. exact Hres. }
  apply appends_vhdlGen.
Qed.

Lemma write_reg_sections_witness :
  let self := {| addrMap := None; fieldMap := None; busWidth := 32 |} in
  let ena := {| field_name := "ENA"; bitOffset := 4; bitWidth := 1;
                resets := Some {| reset := Some {| reset_value := 1 |} |};
                enumeratedValues := [] |} in
  let rst := {| field_name := "RST"; bitOffset := 0; bitWidth := 1;
                resets := None; enumeratedValues := [] |} in
  let reg := {| reg_name := "mode"; description := "Mode";
                addressOffset := 0; field := [ena; rst] |} in
  busWidth self <> 0
  /\ emitted_names (out (fst (__write_reg self reg true true true
                                init_state)))
     = ["RST_IND"; "ENA_IND"; "ENA_RSTVAL"].
Proof.
  intros self ena rst reg.
  assert (Hbw : busWidth self <> 0) by (simpl; lia).
  split; [exact Hbw |].
  destruct (write_reg_sections self reg true true true Hbw)
    as (positions & enums & resetvals & Hpos & Henum & Hres & _ & _ & H).
  rewrite (appends_init _ _ _ _ H).
  apply appends_init in Hpos, Henum, Hres.
  injection Hpos as <-. injection Henum as <-. injection Hres as <-.
  reflexivity.
Defined.

(** The bus width is looked at only when bit positions are written:
    with a bus width of zero, [__write_reg] with [writeFields] on
    raises [ZeroDivisionError] for a register that has a field, once
    the title comment is written and nothing else; with [writeFields]
    off, or for a register without fields, it returns normally. *)
Theorem write_reg_zero_bus self reg writeEnums writeReset :
  busWidth self = 0 ->
  (field reg <> [] ->
   appends (__write_reg self reg true writeEnums writeReset)
     [write_comment (description reg) 2 None
        (Some (upper (reg_name reg) ++ " register"))]
     [] (inl ZeroDivisionError))
  /\ runs (__write_reg self reg false writeEnums writeReset)
  /\ (field reg = [] ->
      runs (__write_reg self reg true writeEnums writeReset)).
Proof.
  intros Hbw.
  assert (Hrest : forall wf,
            (wf = true -> field reg = []) ->
            runs (__write_reg self reg wf writeEnums writeReset)).
  { intros wf Hwf. unfold __write_reg.
    apply runs_bind; [apply runs_vhdlGen | intros _].
    apply runs_bind.
    { destruct wf; [| apply runs_ret]. rewrite (Hwf eq_refl).
      apply runs_ret. }
    intros _. apply runs_bind.
    { destruct writeEnums; [| apply runs_ret].
      apply runs_bind; [| intros _; apply runs_vhdlGen].
      apply runs_for_each. intros f _. apply runs_write_reg_enums. }
    intros _. apply runs_bind; [| intros _; apply runs_vhdlGen].
    destruct writeReset; [| apply runs_ret].
    apply runs_bind; [apply runs_vhdlGen | intros _].
    apply runs_for_each. intros f _. apply runs_write_res_vals. }
  split; [| split].
  - intros Hne. unfold __write_reg. apply appends_vhdlGen_then.
    apply appends_bind_raise.
    destruct (sorted bitOffset (field reg)) as [|f fs] eqn:E.
    + exfalso. apply Hne.
      apply Permutation_nil. rewrite <- E. apply sorted_perm.
    + simpl. apply appends_bind_raise.
      now apply write_reg_field_zero_bus.
  - apply Hrest. discriminate.
  - intros He. apply Hrest. auto.
Qed.

Lemma write_reg_zero_bus_witness :
  let self := {| addrMap := None; fieldMap := None; busWidth := 0 |} in
  let ena := {| field_name := "ENA"; bitOffset := 4; bitWidth := 1;
                resets := None; enumeratedValues := [] |} in
  let reg := {| reg_name := "mode"; description := "Mode";
                addressOffset := 0; field := [ena] |} in
  busWidth self = 0
  /\ field reg <> []
  /\ __write_reg self reg true true true init_state
     = ({| out := [write_comment "Mode" 2 None (Some "MODE register")];
           stdout := [] |}, inl ZeroDivisionError).
Proof.
  intros self ena reg.
  assert (Hbw : busWidth self = 0) by reflexivity.
  assert (Hne : field reg <> []) by discriminate.
  split; [exact Hbw |]. split; [exact Hne |].
  destruct (write_reg_zero_bus self reg true true Hbw) as (Hraise & _).
  exact (appends_init _ _ _ _ (Hraise Hne)).
Defined.

(** *** The registers of a block in fields mode *)

(** With pairwise distinct address offsets, [write_regs] does the same
    for every order in which the registers are handed to it. *)
Theorem write_regs_order_independent self regs regs' :
  NoDup (map addressOffset regs) ->
  Permutation regs regs' ->
  write_regs self regs' = write_regs self regs.
Proof.
  intros Hn Hp. unfold write_regs.
  now rewrite (sorted_perm_invariant addressOffset regs regs' Hn Hp).
Qed.

Lemma write_regs_order_independent_witness :
  let self := {| addrMap := None; fieldMap := None; busWidth := 32 |} in
  let mode := {| reg_name := "MODE"; description := "";
                 addressOffset := 0; field := [] |} in
  let status := {| reg_name := "STATUS"; description := "";
                   addressOffset := 4; field := [] |} in
  NoDup (map addressOffset [status; mode])
  /\ Permutation [status; mode] [mode; status]
  /\ write_regs self [mode; status] = write_regs self [status; mode].
Proof.
  intros self mode status.
  assert (Hn : NoDup (map addressOffset [status; mode])).
  { simpl. repeat constructor; simpl; intuition discriminate. }
  assert (Hp : Permutation [status; mode] [mode; status])
    by apply perm_swap.
  split; [exact Hn |]. split; [exact Hp |].
  exact (write_regs_order_independent self _ _ Hn Hp).
Defined.

Lemma runs_write_reg self reg :
  busWidth self <> 0 \/ field reg = [] ->
  runs (__write_reg self reg true true true).
Proof.
  intros [Hbw|He].
  - destruct (write_reg_sections self reg true true true Hbw)
      as (p & e & r & _ & _ & _ & _ & _ & H).
    eexists. exists tt. exact H.
  - destruct (Z.eq_dec (busWidth self) 0) as [Hz|Hnz].
    + now apply (write_reg_zero_bus self reg true true Hz).
    + destruct (write_reg_sections self reg true true true Hnz)
        as (p & e & r & _ & _ & _ & _ & _ & H).
      eexists. exists tt. exact H.
Qed.

Lemma raises_write_reg self reg :
  busWidth self = 0 -> field reg <> [] ->
  raises ZeroDivisionError (__write_reg self reg true true true).
Proof.
  intros Hbw Hne. eexists.
  now apply (write_reg_zero_bus self reg true true Hbw).
Qed.

Lemma runs_ret_bind {A B} (a : A) (k : A -> Gen B) :
  runs (k a) -> runs (bind (ret a) k).
Proof.
  intros (c & b & H). exists c, b. now apply appends_ret_then.
Qed.

Lemma raises_ret_bind {A B} e (a : A) (k : A -> Gen B) :
  raises e (k a) -> raises e (bind (ret a) k).
Proof.
  intros (c & H). exists c. now apply appends_ret_then.
Qed.

Lemma has_field_false reg : has_field reg = false <-> field reg = [].
Proof.
  unfold has_field. destruct (field reg); split; auto; discriminate.
Qed.

Lemma write_regs_outcome self regs :
  if (busWidth self =? 0) && existsb has_field regs
  then raises ZeroDivisionError (write_regs self regs)
  else runs (write_regs self regs).
Proof.
  unfold write_regs.
  destruct (busWidth self =? 0) eqn:Ebw; simpl.
  - apply Z.eqb_eq in Ebw.
    destruct (existsb has_field regs) eqn:Ex.
    + apply existsb_exists in Ex. destruct Ex as (reg & Hin & Hf).
      apply raises_for_each.
      * intros x _. destruct (has_field x) eqn:Hx.
        -- right. apply raises_write_reg; [exact Ebw |].
           intros He. apply has_field_false in He. congruence.
        -- left. apply runs_write_reg. right.
           now apply has_field_false.
      * exists reg. split; [now apply sorted_In |].
        apply raises_write_reg; [exact Ebw |].
        intros He. apply has_field_false in He. congruence.
    + apply runs_for_each. intros x Hx. apply runs_write_reg. right.
      apply has_field_false. apply sorted_In in Hx.
      destruct (has_field x) eqn:E; [| reflexivity].
      assert (existsb has_field regs = true)
        by (apply existsb_exists; eauto).
      congruence.
  - apply Z.eqb_neq in Ebw. apply runs_for_each.
    intros x _. apply runs_write_reg. now left.
Qed.

(** Fields mode on a map that is there raises exactly when the bus
    width is zero and some register of some block has a field, and
    then with [ZeroDivisionError]; in every other case it returns
    normally, whatever the widths, offsets, resets and enumerated
    values of the fields are. *)
Theorem write_mem_map_fields_outcome self fm :
  fieldMap self = Some fm ->
  if (busWidth self =? 0)
     && existsb (fun block => existsb has_field (register block))
          (addressBlock fm)
  then raises ZeroDivisionError (write_mem_map_fields self)
  else runs (write_mem_map_fields self).
Proof.
  intros Hfm. unfold write_mem_map_fields. rewrite Hfm. simpl blocks_of.
  assert (Hblock : forall block,
            if (busWidth self =? 0) && existsb has_field (register block)
            then raises ZeroDivisionError
                   (write_regs self (register block))
            else runs (write_regs self (register block)))
    by (intros; apply write_regs_outcome).
  destruct (busWidth self =? 0); simpl in *.
  - destruct (existsb _ (addressBlock fm)) eqn:Ex.
    + apply existsb_exists in Ex. destruct Ex as (b & Hin & Hb).
      apply raises_ret_bind. apply raises_for_each.
      * intros x _. specialize (Hblock x).
        destruct (existsb has_field (register x)); auto.
      * exists b. split; [exact Hin |].
        specialize (Hblock b). now rewrite Hb in Hblock.
    + apply runs_ret_bind.
      apply runs_for_each. intros x Hx. specialize (Hblock x).
      destruct (existsb has_field (register x)) eqn:E; [| exact Hblock].
      assert (existsb (fun block => existsb has_field (register block))
                (addressBlock fm) = true)
        by (apply existsb_exists; eauto).
      congruence.
  - apply runs_ret_bind.
    apply runs_for_each. intros x _. apply Hblock.
Qed.

Lemma write_mem_map_fields_outcome_witness :
  let ena := {| field_name := "ENA"; bitOffset := 4; bitWidth := 1;
                resets := None; enumeratedValues := [] |} in
  let reg := {| reg_name := "mode"; description := "Mode";
                addressOffset := 0; field := [ena] |} in
  let block := {| block_name := "BL"; baseAddress := 0; range := 0;
                  register := [reg] |} in
  let fm := {| map_name := "Regs"; addressBlock := [block] |} in
  let self := {| addrMap := None; fieldMap := Some fm; busWidth := 0 |} in
  fieldMap self = Some fm
  /\ raises ZeroDivisionError (write_mem_map_fields self).
Proof.
  intros ena reg block fm self.
  assert (Hfm : fieldMap self = Some fm) by reflexivity.
  split; [exact Hfm |].
  exact (write_mem_map_fields_outcome self fm Hfm).
Defined.

(** *** Addresses mode: where a failing block stops the run *)

Lemma appends_for_each_app {A B} (l1 l2 : list A) (body : A -> Gen B)
    c1 c2 r :
  (forall x, framed (body x)) ->
  appends (for_each l1 body) c1 [] (inr tt) ->
  appends (for_each l2 body) c2 [] r ->
  appends (for_each (l1 ++ l2) body) (c1 ++ c2) [] r.
Proof.
  intros Hf. revert c1. induction l1 as [|x l1 IH]; intros c1 H1 H2.
  - simpl. destruct (appends_inj _ _ _ _ _ _ _ H1 (appends_ret tt))
      as (-> & _). exact H2.
  - simpl in *. destruct (Hf x) as (cx & lx & [e|b] & Hx).
    + pose proof (appends_bind_raise _ (fun _ => for_each l1 body)
                    _ _ _ Hx) as Hr.
      destruct (appends_inj _ _ _ _ _ _ _ H1 Hr) as (_ & _ & Hne).
      discriminate.
    + destruct (framed_for_each l1 body Hf) as (c' & l' & r' & H').
      pose proof (appends_bind _ (fun _ => for_each l1 body)
                    _ _ _ _ _ _ Hx H') as Hb.
      destruct (appends_inj _ _ _ _ _ _ _ H1 Hb) as (-> & Hl & <-).
      symmetry in Hl. apply app_eq_nil in Hl. destruct Hl as (-> & ->).
      rewrite <- app_assoc.
      eapply appends_step; [exact Hx |]. now apply IH.
Qed.

(** When the division of a block raises (a [range] of zero, or a
    quotient beyond the doubles), addresses mode stops there with that
    exception: the buffer holds what the blocks before it gave,
    followed by the three heading comment lines of the failing block;
    neither its constants nor any later block are written. *)
Theorem write_mem_map_addr_stops self am before block after done e :
  addrMap self = Some am ->
  addressBlock am = (before ++ block :: after)%list ->
  write_mem_map_addr
    {| addrMap := Some {| map_name := map_name am;
                          addressBlock := before |};
       fieldMap := fieldMap self; busWidth := busWidth self |}
    init_state
  = ({| out := done; stdout := [] |}, inr tt) ->
  py_truediv (baseAddress block) (range block) = inl e ->
  appends (write_mem_map_addr self)
    (done
     ++ [write_comm_line None;
         write_comment ("Address block: " ++ block_name block) 2 None None;
         write_comm_line None])
    [] (inl e).
Proof.
  intros Ham Hblocks Hdone He.
  apply (framed_from_init _ _ _ _ (framed_write_mem_map_addr _)) in Hdone.
  unfold write_mem_map_addr in *. simpl addrMap in Hdone.
  rewrite Ham. simpl blocks_of in *. rewrite Hblocks.
  apply appends_ret_then.
  assert (Hpre : appends
            (for_each before (fun b =>
               write_addrbl_head self b;;
               write_addrbl_regs self b;; vhdlGen wr_nl))
            done [] (inr tt)).
  { intros st. specialize (Hdone st). unfold bind in Hdone at 1.
    unfold ret in Hdone at 1. exact Hdone. }
  apply appends_for_each_app; [| exact Hpre |].
  - intros b. auto 10 with framed.
  - simpl. apply appends_bind_raise. apply appends_bind_raise.
    now apply write_addrbl_head_raises.
Qed.

Lemma write_mem_map_addr_stops_witness :
  let lo := {| block_name := "LO"; baseAddress := 0; range := 0x1000;
               register := [ {| reg_name := "MODE"; description := "";
                                addressOffset := 0; field := [] |} ] |} in
  let bad := {| block_name := "BAD"; baseAddress := 0x1000; range := 0;
                register := [ {| reg_name := "STATUS"; description := "";
                                 addressOffset := 0; field := [] |} ] |} in
  let am := {| map_name := "Regs"; addressBlock := [lo; bad; lo] |} in
  let self := {| addrMap := Some am; fieldMap := None; busWidth := 32 |} in
  addrMap self = Some am
  /\ addressBlock am = ([lo] ++ bad :: [lo])%list
  /\ py_truediv (baseAddress bad) (range bad) = inl ZeroDivisionError
  /\ emitted_names (out (fst (write_mem_map_addr self init_state)))
     = ["LO_BLOCK"; "MODE_ADR"]
  /\ snd (write_mem_map_addr self init_state) = inl ZeroDivisionError.
Proof.
  intros lo bad am self.
  assert (Ham : addrMap self = Some am) by reflexivity.
  assert (Hb : addressBlock am = ([lo] ++ bad :: [lo])%list)
    by reflexivity.
  assert (He : py_truediv (baseAddress bad) (range bad)
               = inl ZeroDivisionError) by reflexivity.
  split; [exact Ham |]. split; [exact Hb |]. split; [exact He |].
  pose proof (write_mem_map_addr_stops self am [lo] bad [lo] _
                ZeroDivisionError Ham Hb eq_refl He) as H.
  rewrite (appends_init _ _ _ _ H). split; reflexivity.
Defined.

(** *** Traversals without their map *)



(** *** The package with one map *)

(** With the address map alone, [create_addrMap_package] names that
    map in the heading and puts the output of addresses mode between
    the opening and the closing of the package; with the field map
    alone, likewise for fields mode.  One line is printed, for the map
    that is there. *)
Theorem create_addrMap_package_single_map self name :
  let framing comment body :=
    ([wr_nl; write_comm_line (Some 0); comment;
      write_comment "This file is autogenerated, DO NOT EDIT!"
        0 (Some true) None;
      write_comm_line (Some 0);
      wr_nl;
      create_includes ["std_logic_1164.all"];
      wr_nl;
      create_package name true;
      wr_nl]
     ++ body ++ [create_package name false])%list in
  (forall am A,
     addrMap self = Some am -> fieldMap self = None ->
     write_mem_map_addr self init_state
     = ({| out := A; stdout := [] |}, inr tt) ->
     appends (create_addrMap_package self name)
       (framing (write_comment ("Addresses map for: " ++ map_name am)
                   0 (Some true) None) A)
       ["Writing addresses of '" ++ map_name am ++ "' register map"]
       (inr tt))
  /\ (forall fm F,
        addrMap self = None -> fieldMap self = Some fm ->
        write_mem_map_fields self init_state
        = ({| out := F; stdout := [] |}, inr tt) ->
        appends (create_addrMap_package self name)
          (framing (write_comment ("Field map for: " ++ map_name fm)
                      0 (Some true) None) F)
          ["Writing bit fields of '" ++ map_name fm ++ "' register map"]
          (inr tt)).
Proof.
  intros framing. split.
  - intros am A Ham Hfm HA.
    apply (framed_from_init _ _ _ _ (framed_write_mem_map_addr _)) in HA.
    unfold create_addrMap_package, framing. rewrite Ham, Hfm.
    do 2 apply appends_vhdlGen_then.
    apply appends_bind_bind, appends_print_then, appends_vhdlGen_then.
    apply appends_ret_then.
    do 7 apply appends_vhdlGen_then.
    eapply appends_step; [exact HA |].
    apply appends_ret_then. apply appends_vhdlGen.
  - intros fm F Ham Hfm HF.
    apply (framed_from_init _ _ _ _ (framed_write_mem_map_fields _)) in HF.
    unfold create_addrMap_package, framing. rewrite Ham, Hfm.
    do 2 apply appends_vhdlGen_then.
    apply appends_ret_then.
    apply appends_bind_bind, appends_print_then, appends_vhdlGen_then.
    do 7 apply appends_vhdlGen_then.
    apply appends_ret_then.
    eapply appends_step; [exact HF |].
    apply appends_vhdlGen.
Qed.

Lemma create_addrMap_package_single_map_witness :
  let mode := {| reg_name := "MODE"; description := "Mode";
                 addressOffset := 4; field := [] |} in
  let block := {| block_name := "BL"; baseAddress := 0x1000;
                  range := 0x1000; register := [mode] |} in
  let am := {| map_name := "Regs"; addressBlock := [block] |} in
  let self := {| addrMap := Some am; fieldMap := None; busWidth := 32 |} in
  addrMap self = Some am
  /\ fieldMap self = None
  /\ emitted_names
       (out (fst (create_addrMap_package self "pkg" init_state)))
     = ["BL_BLOCK"; "MODE_ADR"]
  /\ stdout (fst (create_addrMap_package self "pkg" init_state))
     = ["Writing addresses of 'Regs' register map"].
Proof.
  intros mode block am self.
  assert (Ham : addrMap self = Some am) by reflexivity.
  assert (Hfm : fieldMap self = None) by reflexivity.
  split; [exact Ham |]. split; [exact Hfm |].
  destruct (create_addrMap_package_single_map self "pkg") as (H & _).
  rewrite (appends_init _ _ _ _ (H am _ Ham Hfm eq_refl)).
  split; reflexivity.
Defined.

(** *** What the traversals never write, and when the package closes *)

Lemma emits_only_ret P {A} (a : A) : emits_only P (ret a).
Proof. exists [], (inr a). split; [apply appends_ret | constructor]. Qed.

Lemma emits_only_raise P {A} e : emits_only P (@raise A e).
Proof. exists [], (inl e). split; [apply appends_raise | constructor]. Qed.

Lemma emits_only_lift P {A} (r : exn + A) : emits_only P (lift r).
Proof. destruct r; [apply emits_only_raise | apply emits_only_ret]. Qed.

Lemma emits_only_vhdlGen (P : RenderCall -> Prop) c :
  P c -> emits_only P (vhdlGen c).
Proof.
  intros Hc. exists [c], (inr tt).
  split; [apply appends_vhdlGen | now repeat constructor].
Qed.

Lemma emits_only_bind P {A B} (m : Gen A) (k : A -> Gen B) :
  emits_only P m -> (forall a, emits_only P (k a)) ->
  emits_only P (bind m k).
Proof.
  intros (c1 & [e|a] & Hm & P1) Hk.
  - exists c1, (inl e). split; [now apply appends_bind_raise | exact P1].
  - destruct (Hk a) as (c2 & r & Hka & P2).
    exists (c1 ++ c2)%list, r. split.
    + eapply appends_step; eauto.
    + apply Forall_app; auto.
Qed.

Lemma emits_only_for_each P {A B} (l : list A) (body : A -> Gen B) :
  (forall x, emits_only P (body x)) -> emits_only P (for_each l body).
Proof.
  intros H. induction l as [|x l IH]; simpl.
  - apply emits_only_ret.
  - apply emits_only_bind; auto.
Qed.

Lemma emits_only_if P {A} (b : bool) (m1 m2 : Gen A) :
  emits_only P m1 -> emits_only P m2 ->
  emits_only P (if b then m1 else m2).
Proof. now destruct b. Qed.

Create HintDb emits.
#[local] Hint Resolve emits_only_ret emits_only_raise emits_only_lift
  emits_only_for_each emits_only_if : emits.
#[local] Hint Extern 3 (emits_only _ (bind _ _)) =>
  apply emits_only_bind; [| intro] : emits.
#[local] Hint Extern 3 (emits_only body_call (vhdlGen _)) =>
  apply emits_only_vhdlGen; simpl; intuition : emits.

Lemma body_calls_write_reg_enums self f :
  emits_only body_call (write_reg_enums self f).
Proof.
  unfold write_reg_enums. destruct (enumeratedValues f); auto 10 with emits.
Qed.

Lemma body_calls_write_res_vals self f :
  emits_only body_call (write_res_vals self f).
Proof.
  unfold write_res_vals.
  destruct (resets f) as [[[r|]]|]; simpl; auto with emits.
Qed.

Lemma body_calls_write_reg_field self f r :
  emits_only body_call (write_reg_field self f r).
Proof. unfold write_reg_field. auto 10 with emits. Qed.

#[local] Hint Resolve body_calls_write_reg_enums body_calls_write_res_vals
  body_calls_write_reg_field : emits.

Lemma body_calls_write_reg self r wf we wr :
  emits_only body_call (__write_reg self r wf we wr).
Proof. unfold __write_reg. auto 12 with emits. Qed.

#[local] Hint Resolve body_calls_write_reg : emits.

Lemma body_calls_write_regs self regs :
  emits_only body_call (write_regs self regs).
Proof. unfold write_regs. auto with emits. Qed.

Lemma body_calls_write_addrbl_head self b :
  emits_only body_call (write_addrbl_head self b).
Proof. unfold write_addrbl_head. auto 12 with emits. Qed.

Lemma body_calls_write_addrbl_regs self b :
  emits_only body_call (write_addrbl_regs self b).
Proof. unfold write_addrbl_regs. auto with emits. Qed.

Lemma body_calls_blocks_of m : emits_only body_call (blocks_of m).
Proof. destruct m; simpl; auto with emits. Qed.

#[local] Hint Resolve body_calls_write_regs body_calls_write_addrbl_head
  body_calls_write_addrbl_regs body_calls_blocks_of : emits.

Lemma body_calls_write_mem_map_addr self :
  emits_only body_call (write_mem_map_addr self).
Proof. unfold write_mem_map_addr. auto 10 with emits. Qed.

Lemma body_calls_write_mem_map_fields self :
  emits_only body_call (write_mem_map_fields self).
Proof. unfold write_mem_map_fields. auto 10 with emits. Qed.

(** The shape of every run of [create_addrMap_package]: the heading
    with one comment for each map that is there, the body, and the
    closing boundary when, and only when, the run returns. *)
Lemma create_addrMap_package_shape self name :
  let comments :=
    (match addrMap self with
     | Some am => [write_comment ("Addresses map for: " ++ map_name am)
                     0 (Some true) None]
     | None => []
     end
     ++ match fieldMap self with
        | Some fm => [write_comment ("Field map for: " ++ map_name fm)
                        0 (Some true) None]
        | None => []
        end)%list in
  exists body lines r,
    appends (create_addrMap_package self name)
      ([wr_nl; write_comm_line (Some 0)] ++ comments
       ++ [write_comment "This file is autogenerated, DO NOT EDIT!"
             0 (Some true) None;
           write_comm_line (Some 0);
           wr_nl;
           create_includes ["std_logic_1164.all"];
           wr_nl;
           create_package name true;
           wr_nl]
       ++ body
       ++ match r with
          | inr _ => [create_package name false]
          | inl _ => []
          end)
      lines r
    /\ Forall body_call body.
Proof.
  assert (Hbody : forall (ma mf : Gen unit),
            emits_only body_call ma -> emits_only body_call mf ->
            exists body r,
              appends (ma ;; mf ;; vhdlGen (create_package name false))
                (body ++ match r with
                         | inr _ => [create_package name false]
                         | inl _ => []
                         end) [] r
              /\ Forall body_call body).
  { intros ma mf (ca & [ea|[]] & Ha & Pa) (cf & [ef|[]] & Hf & Pf).
    - exists ca, (inl ea). rewrite app_nil_r.
      split; [now apply appends_bind_raise | exact Pa].
    - exists ca, (inl ea). rewrite app_nil_r.
      split; [now apply appends_bind_raise | exact Pa].
    - exists (ca ++ cf)%list, (inl ef). rewrite app_nil_r. split.
      + eapply appends_step; [exact Ha |]. now apply appends_bind_raise.
      + apply Forall_app; auto.
    - exists (ca ++ cf)%list, (inr tt). split.
      + rewrite <- app_assoc. eapply appends_step; [exact Ha |].
        eapply appends_step; [exact Hf |]. apply appends_vhdlGen.
      + apply Forall_app; auto. }
  unfold create_addrMap_package.
  destruct (addrMap self) as [am|] eqn:Eam;
    destruct (fieldMap self) as [fm|] eqn:Efm; cbv zeta.
  - destruct (Hbody (write_mem_map_addr self) (write_mem_map_fields self)
                (body_calls_write_mem_map_addr self)
                (body_calls_write_mem_map_fields self))
      as (body & r & H & P).
    eexists body, _, r. split; [| exact P].
    do 2 apply appends_vhdlGen_then.
    apply appends_bind_bind, appends_print_then, appends_vhdlGen_then.
    apply appends_bind_bind, appends_print_then, appends_vhdlGen_then.
    do 7 apply appends_vhdlGen_then. exact H.
  - destruct (Hbody (write_mem_map_addr self) (ret tt)
                (body_calls_write_mem_map_addr self)
                (emits_only_ret _ tt))
      as (body & r & H & P).
    eexists body, _, r. split; [| exact P].
    do 2 apply appends_vhdlGen_then.
    apply appends_bind_bind, appends_print_then, appends_vhdlGen_then.
    apply appends_ret_then.
    do 7 apply appends_vhdlGen_then. exact H.
  - destruct (Hbody (ret tt) (write_mem_map_fields self)
                (emits_only_ret _ tt)
                (body_calls_write_mem_map_fields self))
      as (body & r & H & P).
    eexists body, _, r. split; [| exact P].
    do 2 apply appends_vhdlGen_then.
    apply appends_ret_then.
    apply appends_bind_bind, appends_print_then, appends_vhdlGen_then.
    do 7 apply appends_vhdlGen_then. exact H.
  - destruct (Hbody (ret tt) (ret tt)
                (emits_only_ret _ tt) (emits_only_ret _ tt))
      as (body & r & H & P).
    exists body, [], r. split; [| exact P].
    do 2 apply appends_vhdlGen_then.
    do 2 apply appends_ret_then.
    do 7 apply appends_vhdlGen_then. exact H.
Qed.

(** Whatever the maps, [create_addrMap_package] first writes the
    heading, in which the comments naming the maps are exactly one
    "Addresses map for: <name>" when the address map is there,
    followed by one "Field map for: <name>" when the field map is
    there (so two at most), and opens the package, once; between the
    opening and the end it writes blank lines, rules, comments and
    declarations only, never an include or a package boundary; and it
    writes the closing boundary, as the last call, exactly when it
    returns normally: a run ended by an exception leaves the package
    open. *)
Theorem create_addrMap_package_closing self name st :
  let comments :=
    (match addrMap self with
     | Some am => [write_comment ("Addresses map for: " ++ map_name am)
                     0 (Some true) None]
     | None => []
     end
     ++ match fieldMap self with
        | Some fm => [write_comment ("Field map for: " ++ map_name fm)
                        0 (Some true) None]
        | None => []
        end)%list in
  let opening :=
    ([wr_nl; write_comm_line (Some 0)] ++ comments
     ++ [write_comment "This file is autogenerated, DO NOT EDIT!"
           0 (Some true) None;
         write_comm_line (Some 0);
         wr_nl;
         create_includes ["std_logic_1164.all"];
         wr_nl;
         create_package name true;
         wr_nl])%list in
  (List.length comments <= 2)%nat
  /\ exists body,
       Forall body_call body
       /\ Forall (fun c => forall n s, c <> create_package n s) body
       /\ match snd (create_addrMap_package self name st) with
          | inr _ =>
              out (fst (create_addrMap_package self name st))
              = (out st ++ opening ++ body
                 ++ [create_package name false])%list
          | inl _ =>
              out (fst (create_addrMap_package self name st))
              = (out st ++ opening ++ body)%list
          end.
Proof.
  intros comments opening. split.
  - unfold comments. destruct (addrMap self), (fieldMap self); simpl; lia.
  - destruct (create_addrMap_package_shape self name)
      as (body & lines & r & H & Pb).
    exists body. split; [exact Pb |]. split.
    + eapply Forall_impl; [| exact Pb].
      intros c Hc n s ->. exact Hc.
    + rewrite (H st). unfold extend, opening, comments. cbn [fst snd out].
      destruct r; rewrite ?app_nil_r, <- ?app_assoc; reflexivity.
Qed.

(** Every declaration [create_addrMap_package] writes declares a
    constant, typed [natural] and aligned at column 50 or typed
    [std_logic] and aligned at column 50 or 80. *)
Theorem create_addrMap_package_declarations self name st :
  let written :=
    skipn (List.length (out st))
      (out (fst (create_addrMap_package self name st))) in
  Forall (fun d =>
            decl_specifier d = "constant"
            /\ ((decl_type d = "natural" /\ decl_alignLen d = 50)
                \/ (decl_type d = "std_logic"
                    /\ (decl_alignLen d = 50 \/ decl_alignLen d = 80))))
    (emitted_decls written).
Proof.
  destruct (create_addrMap_package_shape self name)
    as (body & lines & r & H & Pb).
  cbv zeta in H |- *. rewrite (H st). unfold extend. cbn [fst out].
  rewrite skipn_app, skipn_all, Nat.sub_diag, skipn_O, app_nil_l.
  rewrite !emitted_decls_app.
  assert (Hbody : Forall (fun d =>
            decl_specifier d = "constant"
            /\ ((decl_type d = "natural" /\ decl_alignLen d = 50)
                \/ (decl_type d = "std_logic"
                    /\ (decl_alignLen d = 50 \/ decl_alignLen d = 80))))
            (emitted_decls body)).
  { clear H. induction Pb as [|c cs Hc _ IH]; [constructor |].
    destruct c; try exact IH.
    change (emitted_decls (write_decl decl :: cs))
      with (decl :: emitted_decls cs).
    constructor; [exact Hc | exact IH]. }
  destruct (addrMap self), (fieldMap self); simpl;
    destruct r; simpl; rewrite ?app_nil_r; exact Hbody.
Qed.

(** *** Which exceptions the block heading and addresses mode raise *)

Lemma write_addrbl_head_outcome self block :
  match py_truediv (baseAddress block) (range block) with
  | inr _ => runs (write_addrbl_head self block)
  | inl e => raises e (write_addrbl_head self block)
  end.
Proof.
  destruct (py_truediv (baseAddress block) (range block)) as [e|q] eqn:E.
  - eexists. apply write_addrbl_head_raises. exact E.
  - eexists. exists tt. apply write_addrbl_head_calls. exact E.
Qed.

Lemma raises_unique {A} e1 e2 (m : Gen A) :
  raises e1 m -> raises e2 m -> e1 = e2.
Proof.
  intros (c1 & H1) (c2 & H2).
  destruct (appends_inj _ _ _ _ _ _ _ H1 H2) as (_ & _ & He).
  now inversion He.
Qed.

(** [write_addrbl_head] raises [ZeroDivisionError] exactly when the
    [range] of the block is zero, and the only other exception it can
    raise is [OverflowError], for a quotient beyond the doubles. *)
Theorem write_addrbl_head_exceptions self block :
  (raises ZeroDivisionError (write_addrbl_head self block)
   <-> range block = 0)
  /\ (forall e, raises e (write_addrbl_head self block) ->
        e = ZeroDivisionError \/ e = OverflowError).
Proof.
  pose proof (write_addrbl_head_outcome self block) as Hout.
  split; [split |].
  - intros Hr. destruct (Z.eq_dec (range block) 0) as [Hz|Hnz]; [exact Hz |].
    exfalso.
    pose proof (py_truediv_nonzero (baseAddress block) (range block) Hnz)
      as Hne.
    destruct (py_truediv (baseAddress block) (range block)) as [e|q].
    + apply Hne. f_equal. exact (raises_unique _ _ _ Hout Hr).
    + exact (runs_not_raises _ _ Hout Hr).
  - intros Hz. rewrite Hz, py_truediv_zero in Hout. exact Hout.
  - intros e Hr.
    destruct (py_truediv (baseAddress block) (range block)) as [e'|q] eqn:E.
    + rewrite (raises_unique _ _ _ Hr Hout).
      unfold py_truediv in E.
      destruct (range block =? 0); [inversion E; auto |].
      destruct (baseAddress block =? 0); [discriminate |].
      destruct (SFdiv 53 1024 _ _); inversion E; auto.
    + exfalso. exact (runs_not_raises _ _ Hout Hr).
Qed.

Lemma py_truediv_exceptions a b e :
  py_truediv a b = inl e -> e = ZeroDivisionError \/ e = OverflowError.
Proof.
  unfold py_truediv. destruct (b =? 0); [intros E; inversion E; auto |].
  destruct (a =? 0); [discriminate |].
  destruct (SFdiv 53 1024 _ _); intros E; inversion E; auto.
Qed.

Lemma write_mem_map_addr_loop_outcome self blocks :
  (Forall (fun block =>
             exists q, py_truediv (baseAddress block) (range block) = inr q)
     blocks
   /\ runs (for_each blocks (fun block =>
              write_addrbl_head self block ;;
              write_addrbl_regs self block ;;
              vhdlGen wr_nl)))
  \/ (exists e,
        (e = ZeroDivisionError \/ e = OverflowError)
        /\ Exists (fun block =>
                     py_truediv (baseAddress block) (range block) = inl e)
             blocks
        /\ raises e (for_each blocks (fun block =>
                       write_addrbl_head self block ;;
                       write_addrbl_regs self block ;;
                       vhdlGen wr_nl))).
Proof.
  induction blocks as [|b l IH]; simpl.
  - left. split; [constructor | apply runs_ret].
  - destruct (py_truediv (baseAddress b) (range b)) as [e|q] eqn:E.
    + right. exists e. split; [exact (py_truediv_exceptions _ _ _ E) |].
      split; [now left |].
      apply raises_bind, raises_bind. eexists.
      apply write_addrbl_head_raises. exact E.
    + assert (Hb : runs (write_addrbl_head self b ;;
                         write_addrbl_regs self b ;; vhdlGen wr_nl)).
      { eexists. exists tt. apply write_mem_map_addr_block. exact E. }
      destruct IH as [(Hall & Hruns) | (e & He & Hex & Hraises)].
      * left. split; [constructor; eauto |].
        apply runs_bind; auto.
      * right. exists e. split; [exact He |]. split; [now right |].
        apply runs_then_raises; auto.
Qed.

(** Addresses mode on a map that is there returns normally exactly
    when the division [baseAddress / range] succeeds for every block;
    otherwise it raises, and what it raises is the
    [ZeroDivisionError] or [OverflowError] of one of the blocks. *)
Theorem write_mem_map_addr_outcome self am :
  addrMap self = Some am ->
  (runs (write_mem_map_addr self)
   <-> Forall (fun block =>
                 exists q,
                   py_truediv (baseAddress block) (range block) = inr q)
         (addressBlock am))
  /\ (forall e,
        raises e (write_mem_map_addr self) ->
        (e = ZeroDivisionError \/ e = OverflowError)
        /\ Exists (fun block =>
                     py_truediv (baseAddress block) (range block) = inl e)
             (addressBlock am)).
Proof.
  intros Ham. unfold write_mem_map_addr. rewrite Ham. simpl blocks_of.
  destruct (write_mem_map_addr_loop_outcome self (addressBlock am))
    as [(Hall & Hruns) | (e & He & Hex & Hraises)].
  - apply (runs_ret_bind (addressBlock am)
             (fun blocks => for_each blocks _)) in Hruns.
    split; [split; auto |].
    intros e Hr. exfalso. exact (runs_not_raises e _ Hruns Hr).
  - apply (raises_ret_bind e (addressBlock am)
             (fun blocks => for_each blocks _)) in Hraises.
    rename Hraises into Hr.
    split; [split |].
    + intros Hruns. exfalso. exact (runs_not_raises e _ Hruns Hr).
    + intros Hall. exfalso. apply Exists_exists in Hex.
      destruct Hex as (b & Hin & Hb).
      rewrite Forall_forall in Hall. destruct (Hall b Hin) as (q & Hq).
      congruence.
    + intros e' Hr'. rewrite (raises_unique _ _ _ Hr' Hr). auto.
Qed.

Lemma write_mem_map_addr_outcome_witness :
  let lo := {| block_name := "LO"; baseAddress := 0; range := 0x1000;
               register := [] |} in
  let hi := {| block_name := "HI"; baseAddress := 0x1000; range := 0x1000;
               register := [] |} in
  let am := {| map_name := "Regs"; addressBlock := [lo; hi] |} in
  let self := {| addrMap := Some am; fieldMap := None; busWidth := 32 |} in
  addrMap self = Some am
  /\ runs (write_mem_map_addr self).
Proof.
  intros lo hi am self.
  assert (Ham : addrMap self = Some am) by reflexivity.
  split; [exact Ham |].
  destruct (write_mem_map_addr_outcome self am Ham) as ((_ & Hruns) & _).
  apply Hruns. repeat constructor; eexists; vm_compute; reflexivity.
Defined.

Lemma write_addrbl_head_exceptions_witness :
  let self := {| addrMap := None; fieldMap := None; busWidth := 32 |} in
  let block := {| block_name := "BL"; baseAddress := 0x1000; range := 0;
                  register := [] |} in
  range block = 0
  /\ raises ZeroDivisionError (write_addrbl_head self block).
Proof.
  intros self block.
  assert (Hz : range block = 0) by reflexivity.
  split; [exact Hz |].
  destruct (write_addrbl_head_exceptions self block) as ((_ & Hraise) & _).
  exact (Hraise Hz).
Defined.
